(** * Vibrato analysis: autocorrelation pitch tracking and vibrato-rate estimation

    A shallow embedding of [util.py], [acf_tracker.py], [vibrato.py] and
    [rms_tracker.py], followed by the properties of the analysis pipeline.

    Numbers.  Python [int]s are [Z] (sizes that index a list are [nat]).
    A NumPy [float64] is a real number or one of the three IEEE special
    values; arithmetic on the finite values is exact, so rounding, overflow
    and underflow are outside this model, and a zero is always the positive
    zero (every zero divisor in the sources is a sum of squares or the sum of
    an integer and its opposite, both of which are [+0.0]).  An equation
    between computed values that is proved in this model is an equation of
    exact arithmetic; where rounding decides, [comp_acf] is also given on
    IEEE binary64 numbers (module [Binary64]).

    Exceptions.  A function that can raise returns a [result]. *)

From Stdlib Require Import Reals Lra Lia ZArith List Bool Arith.
From Stdlib Require Floats.
Import ListNotations.

(** ** Python exceptions *)

Module Py.

Inductive exn : Type :=
| ZeroDivisionError
| ValueError
| IndexError.

Inductive result (A : Type) : Type :=
| Ok (a : A)
| Raise (e : exn).

Arguments Ok {A} a.
Arguments Raise {A} e.

Definition bind {A B : Type} (c : result A) (k : A -> result B) : result B :=
  match c with
  | Ok a => k a
  | Raise e => Raise e
  end.

Fixpoint mapM {A B : Type} (f : A -> result B) (l : list A) : result (list B) :=
  match l with
  | [] => Ok []
  | a :: l' =>
      bind (f a) (fun b => bind (mapM f l') (fun bs => Ok (b :: bs)))
  end.

(** [l[i]] for a non-negative index. *)
Definition getitem {A : Type} (l : list A) (i : nat) : result A :=
  match nth_error l i with
  | Some a => Ok a
  | None => Raise IndexError
  end.

(** A slice bound, as Python normalises it against the length. *)
Definition clamp_index (len : nat) (i : Z) : nat :=
  if (i <? 0)%Z then Z.to_nat (Z.max 0 (i + Z.of_nat len))
  else Nat.min (Z.to_nat i) len.

(** [l[start:stop]] *)
Definition slice {A : Type} (l : list A) (start stop : Z) : list A :=
  let s := clamp_index (length l) start in
  let e := clamp_index (length l) stop in
  firstn (e - s) (skipn s l).

(** [math.ceil(a / b)] for two [int]s, [b] not zero: the quotient is exact,
    and [Z.div] rounds down for either sign of [b]. *)
Definition ceil_div (a b : Z) : Z := (- ((- a) / b))%Z.

(** [math.ceil(r)] for a float: [up r] is the integer with [r < up r <= r + 1]. *)
Definition ceil (r : R) : Z := (1 - up (- r))%Z.

(** The objects [compute_processed_f0] can receive for [filter]: a [bool], or
    the builtin [filter] itself, which like every class object is truthy. *)
Inductive flag : Type :=
| PyBool (b : bool)
| PyBuiltinFilter.

Definition truthy (o : flag) : bool :=
  match o with
  | PyBool b => b
  | PyBuiltinFilter => true
  end.

End Py.

Import Py.

Declare Scope py_scope.
Delimit Scope py_scope with py.
Notation "x <- c ;; k" := (bind c (fun x => k))
  (at level 61, c at next level, right associativity) : py_scope.
Notation "' p <- c ;; k" := (bind c (fun p => k))
  (at level 61, p pattern, c at next level, right associativity) : py_scope.
Open Scope py_scope.
Open Scope R_scope.

(** ** NumPy float64 values *)

Module F64.

Inductive float64 : Type :=
| Fin (r : R)
| PInf
| NInf
| NaN.

Definition Rltb (x y : R) : bool := if Rlt_dec x y then true else false.
Definition Reqb (x y : R) : bool := if Req_dec_T x y then true else false.

(** The infinity of the sign of [s]; [0 * inf] and [0 / 0] are NaN. *)
Definition signed_inf (s : R) : float64 :=
  if Rltb 0 s then PInf else if Rltb s 0 then NInf else NaN.

Definition sgn (a : float64) : R :=
  match a with
  | Fin r => r
  | PInf => 1
  | NInf => -1
  | NaN => 0
  end.

Definition isnan (a : float64) : bool :=
  match a with
  | NaN => true
  | _ => false
  end.

Definition fopp (a : float64) : float64 :=
  match a with
  | Fin r => Fin (- r)
  | PInf => NInf
  | NInf => PInf
  | NaN => NaN
  end.

Definition fadd (a b : float64) : float64 :=
  match a, b with
  | NaN, _ | _, NaN => NaN
  | Fin x, Fin y => Fin (x + y)
  | PInf, NInf | NInf, PInf => NaN
  | PInf, _ | _, PInf => PInf
  | NInf, _ | _, NInf => NInf
  end.

Definition fsub (a b : float64) : float64 :=
  match a, b with
  | Fin x, Fin y => Fin (x - y)
  | _, _ => fadd a (fopp b)
  end.

Definition fmul (a b : float64) : float64 :=
  match a, b with
  | NaN, _ | _, NaN => NaN
  | Fin x, Fin y => Fin (x * y)
  | _, _ => signed_inf (sgn a * sgn b)
  end.

Definition fdiv (a b : float64) : float64 :=
  match a, b with
  | NaN, _ | _, NaN => NaN
  | Fin x, Fin y => if Reqb y 0 then signed_inf x else Fin (x / y)
  | Fin _, _ => Fin 0
  | _, Fin y => signed_inf (sgn a * (if Rltb y 0 then -1 else 1))
  | _, _ => NaN
  end.

Definition fsqrt (a : float64) : float64 :=
  match a with
  | Fin x => if Rltb x 0 then NaN else Fin (sqrt x)
  | PInf => PInf
  | NInf | NaN => NaN
  end.

(** [a < b]; every comparison with NaN is false. *)
Definition flt (a b : float64) : bool :=
  match a, b with
  | NaN, _ | _, NaN => false
  | Fin x, Fin y => Rltb x y
  | NInf, (Fin _ | PInf) => true
  | Fin _, PInf => true
  | _, _ => false
  end.

(** [a <= b] *)
Definition fle (a b : float64) : bool :=
  match a, b with
  | NaN, _ | _, NaN => false
  | Fin x, Fin y => negb (Rltb y x)
  | NInf, _ | _, PInf => true
  | _, _ => false
  end.

(** [a == b] *)
Definition feqb (a b : float64) : bool :=
  match a, b with
  | Fin x, Fin y => Reqb x y
  | PInf, PInf | NInf, NInf => true
  | _, _ => false
  end.

End F64.

Import F64.

(** ** NumPy array functions *)

Module Np.

(** [np.dot(x, y)] of two vectors (the callers pass equal lengths). *)
Fixpoint dot (x y : list float64) : float64 :=
  match x, y with
  | a :: x', b :: y' => fadd (fmul a b) (dot x' y')
  | _, _ => Fin 0
  end.

(** [np.sum(x)] *)
Fixpoint sum (x : list float64) : float64 :=
  match x with
  | [] => Fin 0
  | a :: x' => fadd a (sum x')
  end.

(** [np.mean(x)]; the mean of an empty array is [0.0 / 0], NaN. *)
Definition mean (x : list float64) : float64 :=
  fdiv (sum x) (Fin (INR (length x))).

(** The entry of the correlation at lag [k]: the sum of [a[n+k] * v[n]] over
    the [n] for which both indices exist. *)
Definition corr_lag (a v : list float64) (k : Z) : float64 :=
  if (0 <=? k)%Z then dot (skipn (Z.to_nat k) a) v
  else dot a (skipn (Z.to_nat (- k)) v).

(** [np.correlate(a, v, "full")]: the lags from [-(len(v)-1)] to [len(a)-1];
    an empty argument is rejected. *)
Definition correlate_full (a v : list float64) : result (list float64) :=
  match a, v with
  | [], _ | _, [] => Raise ValueError
  | _, _ =>
      Ok (map (fun j => corr_lag a v (Z.of_nat j - (Z.of_nat (length v) - 1)))
              (seq 0 (length a + length v - 1)))
  end.

(** [np.diff(r)] *)
Fixpoint diff (r : list float64) : list float64 :=
  match r with
  | a :: (b :: _) as tl => fsub b a :: diff tl
  | _ => []
  end.

(** [np.where(d > 0)[0]], the indices counted from [i]. *)
Fixpoint where_gt0_from (i : nat) (d : list float64) : list nat :=
  match d with
  | [] => []
  | v :: d' =>
      if flt (Fin 0) v then i :: where_gt0_from (S i) d'
      else where_gt0_from (S i) d'
  end.

Definition where_gt0 (d : list float64) : list nat := where_gt0_from 0 d.

(** The scan of [np.argmax]: the running maximum is replaced when
    [not (v <= best)], and the scan stops at a NaN. *)
Fixpoint argmax_scan (best : float64) (besti i : nat) (l : list float64) : nat :=
  match l with
  | [] => besti
  | v :: l' =>
      if isnan best then besti
      else if fle v best then argmax_scan best besti (S i) l'
      else argmax_scan v i (S i) l'
  end.

(** [np.argmax(l)]; an empty sequence has no argmax. *)
Definition argmax (l : list float64) : result nat :=
  match l with
  | [] => Raise ValueError
  | v :: l' => Ok (argmax_scan v 0 1 l')
  end.

(** [np.pad(x, (0, n))] pads with zeros on the right; a negative width is
    rejected. *)
Definition pad_right (x : list float64) (n : Z) : result (list float64) :=
  if (n <? 0)%Z then Raise ValueError
  else Ok (x ++ repeat (Fin 0) (Z.to_nat n)).

(** The shape check of [np.zeros]: a dimension cannot be negative. *)
Definition check_dim (n : Z) : result nat :=
  if (n <? 0)%Z then Raise ValueError else Ok (Z.to_nat n).

(** [xb[n] = v] for a row of [width] entries: [v] has that length, or is
    broadcast from length one. *)
Definition assign_row (width : nat) (v : list float64) : result (list float64) :=
  if (length v =? width)%nat then Ok v
  else match v with
       | [a] => Ok (repeat a width)
       | _ => Raise ValueError
       end.

End Np.

(** ** SciPy filters

    [scipy.signal] is outside the repository: its four functions are an
    interface, and each is taken to return.  The [ValueError] that [butter]
    raises for a cut-off that is not below half the sample rate is therefore
    outside the model: what is proved of a tracker that filters is proved of
    the calls in which scipy returns.  [medfilt] and [lfilter] return an
    array as long as their input. *)

Class ScipySignal : Type := {
  medfilt : list float64 -> Z -> list float64;
  buttord : R -> R -> R -> R -> R -> Z * R;
  butter : Z -> R -> R -> list float64 * list float64;
  lfilter : list float64 -> list float64 -> list float64 -> list float64
}.

Class ScipySignalLaws (S : ScipySignal) : Prop := {
  medfilt_length : forall x n, length (medfilt x n) = length x;
  lfilter_length : forall b a x, length (lfilter b a x) = length x
}.

(** ** util.py *)

(** [block_audio(x, block_size, hop_size, fs)] *)
Definition block_audio (x : list float64) (block_size hop_size : Z) (fs : R)
  : result (list (list float64) * list float64) :=
  if (hop_size =? 0)%Z then Raise ZeroDivisionError
  else
    let num_blocks := ceil_div (Z.of_nat (length x)) hop_size in
    x <- Np.pad_right x block_size ;;
    rows <- Np.check_dim num_blocks ;;
    width <- Np.check_dim block_size ;;
    xb <- mapM (fun n : nat =>
                  let start := (Z.of_nat n * hop_size)%Z in
                  let stop := Z.min (Z.of_nat (length x)) (start + block_size) in
                  Np.assign_row width (slice x start stop))
               (seq 0 rows) ;;
    let t := map (fun n : nat =>
                    fdiv (Fin (IZR (Z.of_nat n * hop_size))) (Fin fs))
                 (seq 0 rows) in
    Ok (xb, t).

(** [quadratic_interp(a, b, c)] *)
Definition quadratic_interp (a b c : float64) : float64 :=
  let denominator := fadd (fsub a (fmul (Fin 2) b)) c in
  if feqb denominator (Fin 0) then Fin 0
  else fdiv (fmul (Fin 0.5) (fsub a c)) denominator.

(** [median_filter(x, n=3)] *)
Definition median_filter `{ScipySignal} (x : list float64) (n : Z) : list float64 :=
  medfilt x n.

Definition DEFAULT_FILTER : bool := true.
Definition DEFAULT_INTERPOLATE : bool := true.
Definition DEFAULT_HOP_DENOM : Z := 5.
Definition DEFAULT_WINDOW_DUR : R := 0.5.

Record VibratoTrackerParams : Type := {
  block_size : Z;
  hop_size : Z;
  fs : R;
  filter : bool;
  interpolate : bool;
  hop_denominator : Z;
  window_duration : R;
  acf_fs : R;
  window_size : Z;
  window_hop_size : Z
}.

(** The keyword arguments of the constructor; [None] is an absent keyword. *)
Record kwargs : Type := {
  kw_filter : option bool;
  kw_interpolate : option bool;
  kw_hop_denominator : option Z;
  kw_window_duration : option R
}.

Definition no_kwargs : kwargs :=
  {| kw_filter := None; kw_interpolate := None;
     kw_hop_denominator := None; kw_window_duration := None |}.

Definition kwargs_get {A : Type} (v : option A) (default : A) : A :=
  match v with
  | Some a => a
  | None => default
  end.

(** ** acf_tracker.py *)

(** [comp_acf(x, normalize=True)] *)
Definition comp_acf (x : list float64) (normalize : bool) : result (list float64) :=
  let norm := if normalize then Np.dot x x else Fin 1 in
  correlation <- Np.correlate_full x x ;;
  let correlation :=
    slice correlation (Z.of_nat (length x) - 1) (Z.of_nat (length correlation)) in
  Ok (map (fun c => fdiv c norm) correlation).

(** [get_f0_from_acf(r, fs, interpolate=False)] *)
Definition get_f0_from_acf (r : list float64) (fs : R) (interpolate : bool)
  : result float64 :=
  let cutoff := 1%nat in
  let diffs := Np.diff r in
  let positive_diffs := Np.where_gt0 diffs in
  match positive_diffs with
  | [] => Ok (Fin 0)
  | cutoff_tmp :: _ =>
      let cutoff := Nat.max cutoff cutoff_tmp in
      m <- Np.argmax (slice r (Z.of_nat cutoff + 1) (Z.of_nat (length r))) ;;
      let f := (m + cutoff + 1)%nat in
      if interpolate && (0 <? f)%nat then
        a <- getitem r (f - 1) ;;
        b <- getitem r f ;;
        c <- (if (f + 1 =? length r)%nat then getitem r f
              else getitem r (f + 1)) ;;
        let adjustment := quadratic_interp a b c in
        Ok (fdiv (Fin fs) (fadd (Fin (INR f)) adjustment))
      else Ok (fdiv (Fin fs) (Fin (INR f)))
  end.

(** [track_pitch_acf(x, block_size, hop_size, fs, interpolate=False)] *)
Definition track_pitch_acf (x : list float64) (block_size hop_size : Z) (fs : R)
  (interpolate : bool) : result (list float64 * list float64) :=
  '(xb, t) <- block_audio x block_size hop_size fs ;;
  f0 <- mapM (fun block =>
                r <- comp_acf block true ;;
                get_f0_from_acf r fs interpolate)
             xb ;;
  Ok (f0, t).

(** ** vibrato.py *)

(** [remove_mean(x)] *)
Definition remove_mean (x : list float64) : list float64 * float64 :=
  let mean := Np.mean x in
  let normalized := map (fun v => fsub v (Np.mean x)) x in
  (normalized, mean).

(** [vibrato_fs(fs, hop_size)]: Python's own division, which raises at zero. *)
Definition vibrato_fs (fs : R) (hop_size : Z) : result R :=
  if (hop_size =? 0)%Z then Raise ZeroDivisionError
  else Ok (fs / IZR hop_size).

(** [vibrato_lpf(f0, acf_fs, f_cutoff=20)] *)
Definition vibrato_lpf `{ScipySignal} (f0 : list float64) (acf_fs f_cutoff : R)
  : list float64 :=
  let '(N, wn) := buttord (f_cutoff * 0.9) (f_cutoff * 1.1) 3 100 acf_fs in
  let '(b, a) := butter N wn acf_fs in
  lfilter b a f0.

(** [vibrato_frequency(f0, acf_fs, f0_is_normalized=False, interpolate=True)] *)
Definition vibrato_frequency (f0 : list float64) (acf_fs : R)
  (f0_is_normalized interpolate : bool) : result float64 :=
  let f0 := if negb f0_is_normalized then fst (remove_mean f0) else f0 in
  f0_r <- comp_acf f0 true ;;
  get_f0_from_acf f0_r acf_fs interpolate.

(** [compute_processed_f0(x, block_size, hop_size, fs, filter=True, interpolate=True)] *)
Definition compute_processed_f0 `{ScipySignal} (x : list float64)
  (block_size hop_size : Z) (fs : R) (filter : flag) (interpolate : bool)
  : result (list float64 * R) :=
  '(f0, _) <- track_pitch_acf x block_size hop_size fs interpolate ;;
  acf_fs <- vibrato_fs fs hop_size ;;
  let f0_norm := fst (remove_mean f0) in
  let f0_norm :=
    if truthy filter then vibrato_lpf (median_filter f0_norm 3) acf_fs 20
    else f0_norm in
  Ok (f0_norm, acf_fs).

(** [find_vibrato_freq_from_f0(f0_norm, acf_fs, interpolate=True)] *)
Definition find_vibrato_freq_from_f0 (f0_norm : list float64) (acf_fs : R)
  (interpolate : bool) : result float64 :=
  vibrato_frequency f0_norm acf_fs true interpolate.

(** [find_vibrato_freq(x, block_size, hop_size, fs, filter=True, interpolate=True)] *)
Definition find_vibrato_freq `{ScipySignal} (x : list float64)
  (block_size hop_size : Z) (fs : R) (filter interpolate : bool)
  : result float64 :=
  '(f0_norm, acf_fs) <-
    compute_processed_f0 x block_size hop_size fs (PyBool filter) interpolate ;;
  find_vibrato_freq_from_f0 f0_norm acf_fs interpolate.

(** [track_vibrato_freq(x, params)].  The argument in the position of
    [filter] is the name [filter], which in this function is the builtin. *)
Definition track_vibrato_freq `{ScipySignal} (x : list float64)
  (params : VibratoTrackerParams) : result (list float64 * list float64) :=
  let block_size := block_size params in
  let hop_size := hop_size params in
  let fs := fs params in
  '(f0, acf_fs) <-
    compute_processed_f0 x block_size hop_size fs PyBuiltinFilter
      (interpolate params) ;;
  let f0_window_size := window_size params in
  let f0_hop_size := window_hop_size params in
  let hop_denominator := hop_denominator params in
  '(windows, times) <- block_audio f0 f0_window_size f0_hop_size acf_fs ;;
  let cut_windows := (hop_denominator - 1)%Z in
  let num_windows := (Z.of_nat (length windows) - cut_windows)%Z in
  let times := slice times 0 num_windows in
  let windows := slice windows 0 num_windows in
  n <- Np.check_dim num_windows ;;
  params <- mapM (fun i : nat =>
                    window <- getitem windows i ;;
                    find_vibrato_freq_from_f0 window acf_fs true)
                 (seq 0 n) ;;
  Ok (params, times).

(** ** util.py: the constructor of [VibratoTrackerParams] *)

(** [VibratoTrackerParams(block_size, hop_size, fs, **kwargs)] *)
Definition VibratoTrackerParams_init (block_size hop_size : Z) (fs : R)
  (kw : kwargs) : result VibratoTrackerParams :=
  let filter := kwargs_get (kw_filter kw) DEFAULT_FILTER in
  let interpolate := kwargs_get (kw_interpolate kw) DEFAULT_INTERPOLATE in
  let hop_denominator := kwargs_get (kw_hop_denominator kw) DEFAULT_HOP_DENOM in
  let window_duration := kwargs_get (kw_window_duration kw) DEFAULT_WINDOW_DUR in
  acf_fs <- vibrato_fs fs hop_size ;;
  let window_size := ceil (acf_fs * window_duration) in
  if (hop_denominator =? 0)%Z then Raise ZeroDivisionError
  else
    let window_hop_size := ceil_div window_size hop_denominator in
    Ok {| block_size := block_size; hop_size := hop_size; fs := fs;
          filter := filter; interpolate := interpolate;
          hop_denominator := hop_denominator;
          window_duration := window_duration;
          acf_fs := acf_fs; window_size := window_size;
          window_hop_size := window_hop_size |}.

(** ** rms_tracker.py *)

Definition epsilon : R := 1e-5.

(** [block_rms(x)] *)
Definition block_rms (x : list float64) : float64 :=
  let rms := fsqrt (fdiv (Np.dot x x) (Fin (INR (length x)))) in
  if flt rms (Fin epsilon) then Fin epsilon else rms.

(** [extract_rms(xb)] *)
Definition extract_rms (xb : list (list float64)) : list float64 :=
  map block_rms xb.

(** [track_rms(x, block_size, hop_size, fs)] *)
Definition track_rms (x : list float64) (block_size hop_size : Z) (fs : R)
  : result (list float64 * list float64) :=
  '(xb, t) <- block_audio x block_size hop_size fs ;;
  let rms := extract_rms xb in
  Ok (rms, t).

(** [find_vibrato_freq_from_rms(rms, acf_fs, interpolate=True)] *)
Definition find_vibrato_freq_from_rms (rms : list float64) (acf_fs : R)
  (interpolate : bool) : result float64 :=
  vibrato_f <- vibrato_frequency rms acf_fs false interpolate ;;
  Ok (fdiv vibrato_f (Fin 2)).

(** [track_rms_vibrato_freq(x, params)] *)
Definition track_rms_vibrato_freq (x : list float64)
  (params : VibratoTrackerParams) : result (list float64 * list float64) :=
  let block_size := block_size params in
  let hop_size := hop_size params in
  let fs := fs params in
  '(rms, t) <- track_rms x block_size hop_size fs ;;
  acf_fs <- vibrato_fs fs hop_size ;;
  let rms_window_size := window_size params in
  let rms_hop_size := window_hop_size params in
  let hop_denominator := hop_denominator params in
  '(windows, times) <- block_audio rms rms_window_size rms_hop_size acf_fs ;;
  let cut_windows := (hop_denominator - 1)%Z in
  let num_windows := (Z.of_nat (length windows) - cut_windows)%Z in
  let times := slice times 0 num_windows in
  let windows := slice windows 0 num_windows in
  n <- Np.check_dim num_windows ;;
  vibrato_freqs <- mapM (fun i : nat =>
                           window <- getitem windows i ;;
                           find_vibrato_freq_from_rms window acf_fs true)
                        (seq 0 n) ;;
  Ok (vibrato_freqs, times).

(** ** Real-valued signals

    A signal of the data model is a sequence of real samples; [as_floats]
    is the array that holds it.  [rdot] is the inner product of two real
    sequences, truncated to the shorter one. *)

Definition as_floats (x : list R) : list float64 := map Fin x.

Fixpoint rdot (x y : list R) : R :=
  match x, y with
  | a :: x', b :: y' => a * b + rdot x' y'
  | _, _ => 0
  end.

(** The right half of the autocorrelation of a real signal, lag by lag. *)
Definition racf (x : list R) : list R :=
  map (fun k => rdot (skipn k x) x) (seq 0 (length x)).

(** Block [n] of a blocking: [block_size] samples of the padded signal from
    [n * hop_size] on. *)
Definition block_at (x : list float64) (block_size hop_size : Z) (n : nat)
  : list float64 :=
  firstn (Z.to_nat block_size)
    (skipn (n * Z.to_nat hop_size) (x ++ repeat (Fin 0) (Z.to_nat block_size))).

(** [i] is the index of the first strictly positive first difference of [r]. *)
Definition first_rise (r : list R) (i : nat) : Prop :=
  (S i < length r)%nat /\ nth i r 0 < nth (S i) r 0 /\
  forall j, (j < i)%nat -> nth (S j) r 0 <= nth j r 0.

(** [f] is the first index behind [cutoff] at which [r] is largest there. *)
Definition peak_after (r : list R) (cutoff f : nat) : Prop :=
  (cutoff < f < length r)%nat /\
  (forall j, (cutoff < j < length r)%nat -> nth j r 0 <= nth f r 0) /\
  (forall j, (cutoff < j < f)%nat -> nth j r 0 < nth f r 0).

(** [k * x] for a scalar [k] and an array [x]. *)
Definition scale (k : R) (x : list float64) : list float64 :=
  map (fmul (Fin k)) x.

(** The filters that return their input (for [lfilter], the filter with
    [b = a = [1]]): an instance on which the pipeline can be run. *)
Definition passthrough : ScipySignal :=
  {| medfilt := fun x _ => x;
     buttord := fun _ _ _ _ _ => (1%Z, 1);
     butter := fun _ _ _ => ([Fin 1], [Fin 1]);
     lfilter := fun _ _ x => x |}.

(** The parameters [VibratoTrackerParams(2048, 1024, 44100)]. *)
Definition default_params : VibratoTrackerParams :=
  {| block_size := 2048; hop_size := 1024; fs := 44100;
     filter := true; interpolate := true;
     hop_denominator := 5; window_duration := 0.5;
     acf_fs := 44100 / 1024; window_size := 22; window_hop_size := 5 |}.

(** The contour that mean removal, the median filter and the low-pass filter
    make of an F0 contour. *)
Definition filtered_contour `{ScipySignal} (f0 : list float64) (acf_fs : R)
  : list float64 :=
  vibrato_lpf (median_filter (fst (remove_mean f0)) 3) acf_fs 20.

(** [params] with its [filter] field replaced. *)
Definition with_filter (b : bool) (p : VibratoTrackerParams) : VibratoTrackerParams :=
  {| block_size := block_size p; hop_size := hop_size p; fs := fs p;
     filter := b; interpolate := interpolate p;
     hop_denominator := hop_denominator p;
     window_duration := window_duration p;
     acf_fs := acf_fs p; window_size := window_size p;
     window_hop_size := window_hop_size p |}.

(** The tail common to [track_vibrato_freq] and [track_rms_vibrato_freq]: cut
    the last windows, then one rate per window with the estimator [rate]. *)
Definition rates_of_windows (rate : list float64 -> result float64)
  (windows : list (list float64)) (times : list float64) (hop_denominator : Z)
  : result (list float64 * list float64) :=
  let cut_windows := (hop_denominator - 1)%Z in
  let num_windows := (Z.of_nat (length windows) - cut_windows)%Z in
  let times := slice times 0 num_windows in
  let windows := slice windows 0 num_windows in
  n <- Np.check_dim num_windows ;;
  params <- mapM (fun i : nat =>
                    window <- getitem windows i ;;
                    rate window)
                 (seq 0 n) ;;
  Ok (params, times).

(** The contour [track_vibrato_freq] analyses: its first statement. *)
Definition track_vibrato_contour `{ScipySignal} (x : list float64)
  (params : VibratoTrackerParams) : result (list float64 * R) :=
  compute_processed_f0 x (block_size params) (hop_size params) (fs params)
    PyBuiltinFilter (interpolate params).

(** ** util.py: the signal generators *)



(** An elementwise operation on two arrays of one length. *)
Fixpoint zip_with {A B C : Type} (f : A -> B -> C) (l : list A) (m : list B)
  : list C :=
  match l, m with
  | a :: l', b :: m' => f a b :: zip_with f l' m'
  | _, _ => []
  end.



(** ** acf_tracker.py in binary64

    The functions of [comp_acf] once more, on IEEE binary64 numbers with
    their rounding, overflow and underflow (Rocq's primitive floats).  The
    products of [np.dot] are accumulated from zero, left to right; the order
    in which NumPy's BLAS adds them is not fixed by the sources. *)

Module Binary64.

Import PrimFloat.

(** [np.dot(x, y)] *)
Definition dot (x y : list float) : float :=
  fold_left (fun acc ab => add acc (mul (fst ab) (snd ab))) (combine x y) zero.

(** Entry [k] of a correlation, as [Np.corr_lag]. *)
Definition corr_lag (a v : list float) (k : Z) : float :=
  if (0 <=? k)%Z then dot (skipn (Z.to_nat k) a) v
  else dot a (skipn (Z.to_nat (- k)) v).

(** [np.correlate(a, v, "full")] *)
Definition correlate_full (a v : list float) : result (list float) :=
  match a, v with
  | [], _ | _, [] => Raise ValueError
  | _, _ =>
      Ok (map (fun j => corr_lag a v (Z.of_nat j - (Z.of_nat (length v) - 1)))
              (seq 0 (length a + length v - 1)))
  end.

(** [k * x] for a scalar [k] and an array [x]. *)
Definition scale (k : float) (x : list float) : list float := map (mul k) x.

(** [comp_acf(x, normalize=True)] *)
Definition comp_acf (x : list float) (normalize : bool) : result (list float) :=
  let norm := if normalize then dot x x else one in
  correlation <- correlate_full x x ;;
  let correlation :=
    slice correlation (Z.of_nat (length x) - 1) (Z.of_nat (length correlation)) in
  Ok (map (fun c => div c norm) correlation).

End Binary64.

(** * Properties *)

(** ** Comparisons of reals *)

Lemma Rltb_true (x y : R) : Rltb x y = true <-> x < y.
Proof. unfold Rltb; destruct (Rlt_dec x y); split; intros; try easy. Qed.

Lemma Rltb_false (x y : R) : Rltb x y = false <-> y <= x.
Proof.
  unfold Rltb; destruct (Rlt_dec x y); split; intros; try easy; lra.
Qed.

Lemma Reqb_true (x y : R) : Reqb x y = true <-> x = y.
Proof. unfold Reqb; destruct (Req_dec_T x y); split; intros; try easy. Qed.

Lemma Reqb_false (x y : R) : Reqb x y = false <-> x <> y.
Proof. unfold Reqb; destruct (Req_dec_T x y); split; intros; try easy. Qed.

Lemma Rltb_irrefl (x : R) : Rltb x x = false.
Proof. apply Rltb_false; lra. Qed.

Lemma Reqb_refl (x : R) : Reqb x x = true.
Proof. now apply Reqb_true. Qed.

(** Decide a boolean comparison of reals from the context by [lra]. *)
Ltac rdecide :=
  repeat match goal with
  | |- context [Rltb ?x ?y] =>
      first [ replace (Rltb x y) with true by (symmetry; apply Rltb_true; lra)
            | replace (Rltb x y) with false by (symmetry; apply Rltb_false; lra) ]
  | |- context [Reqb ?x ?y] =>
      first [ replace (Reqb x y) with true by (symmetry; apply Reqb_true; lra)
            | replace (Reqb x y) with false by (symmetry; apply Reqb_false; lra) ]
  end.

Lemma signed_inf_0 : signed_inf 0 = NaN.
Proof. unfold signed_inf; now rdecide. Qed.

Lemma signed_inf_pos (s : R) : 0 < s -> signed_inf s = PInf.
Proof. intros; unfold signed_inf; now rdecide. Qed.

Lemma signed_inf_neg (s : R) : s < 0 -> signed_inf s = NInf.
Proof. intros; unfold signed_inf; now rdecide. Qed.

Lemma signed_inf_not_fin (s r : R) : signed_inf s <> Fin r.
Proof.
  unfold signed_inf; destruct (Rltb 0 s); [easy|]; now destruct (Rltb s 0).
Qed.

Lemma fdiv_0_0 : fdiv (Fin 0) (Fin 0) = NaN.
Proof. simpl; rewrite Reqb_refl; apply signed_inf_0. Qed.

Lemma fdiv_fin (x y : R) : y <> 0 -> fdiv (Fin x) (Fin y) = Fin (x / y).
Proof. intros Hy; simpl; now apply Reqb_false in Hy as ->. Qed.

Lemma fdiv_nan_r (a : float64) : fdiv a NaN = NaN.
Proof. now destruct a. Qed.

(** ** The result monad *)

Lemma mapM_ok {A B : Type} (f : A -> result B) (g : A -> B) (l : list A) :
  (forall a, In a l -> f a = Ok (g a)) -> mapM f l = Ok (map g l).
Proof.
  induction l as [|a l IH]; intros Hf; simpl; [reflexivity|].
  rewrite (Hf a) by now left. simpl.
  rewrite IH by (intros; apply Hf; now right). reflexivity.
Qed.

Lemma mapM_total {A B : Type} (f : A -> result B) (l : list A) :
  (forall a, In a l -> exists b, f a = Ok b) ->
  exists bs, mapM f l = Ok bs /\ length bs = length l.
Proof.
  induction l as [|a l IH]; intros Hf; simpl.
  - now exists [].
  - destruct (Hf a) as [b Hb]; [now left|].
    destruct IH as [bs [Hbs Hlen]]; [intros; apply Hf; now right|].
    exists (b :: bs). rewrite Hb, Hbs. simpl. now rewrite Hlen.
Qed.

Lemma getitem_ok {A : Type} (l : list A) (i : nat) (d : A) :
  (i < length l)%nat -> getitem l i = Ok (nth i l d).
Proof.
  intros Hi. unfold getitem.
  now rewrite (nth_error_nth' l d Hi).
Qed.

(** ** Slices *)

Lemma clamp_index_nat (len n : nat) :
  clamp_index len (Z.of_nat n) = Nat.min n len.
Proof.
  unfold clamp_index.
  destruct (Z.ltb_spec (Z.of_nat n) 0); [lia|].
  now rewrite Nat2Z.id.
Qed.

Lemma slice_nat {A : Type} (l : list A) (s e : nat) :
  slice l (Z.of_nat s) (Z.of_nat e) =
  firstn (Nat.min e (length l) - Nat.min s (length l)) (skipn (Nat.min s (length l)) l).
Proof. unfold slice. now rewrite !clamp_index_nat. Qed.

Lemma slice_suffix {A : Type} (l : list A) (s : nat) :
  slice l (Z.of_nat s) (Z.of_nat (length l)) = skipn s l.
Proof.
  rewrite slice_nat, Nat.min_id.
  destruct (Nat.le_gt_cases s (length l)) as [Hle|Hgt].
  - rewrite Nat.min_l by assumption.
    apply firstn_all2. rewrite length_skipn. lia.
  - rewrite Nat.min_r by lia. rewrite Nat.sub_diag. simpl.
    symmetry. apply skipn_all2. lia.
Qed.

Lemma slice_prefix {A : Type} (l : list A) (n : nat) :
  (n <= length l)%nat -> slice l 0 (Z.of_nat n) = firstn n l.
Proof.
  intros Hn. change 0%Z with (Z.of_nat 0). rewrite slice_nat.
  simpl. rewrite Nat.sub_0_r. now rewrite Nat.min_l.
Qed.

(** ** Integer ceilings *)

Lemma ceil_div_bounds (a b : Z) :
  (0 < b)%Z -> ((ceil_div a b - 1) * b < a <= ceil_div a b * b)%Z.
Proof.
  intros Hb. unfold ceil_div.
  pose proof (Z.div_mod (- a) b ltac:(lia)) as Hdm.
  pose proof (Z.mod_pos_bound (- a) b Hb) as Hr.
  nia.
Qed.

Lemma ceil_div_nonneg (a b : Z) : (0 <= a)%Z -> (0 < b)%Z -> (0 <= ceil_div a b)%Z.
Proof.
  intros Ha Hb. pose proof (ceil_div_bounds a b Hb). nia.
Qed.

Lemma ceil_div_unique (a b n : Z) :
  (0 < b)%Z -> ((n - 1) * b < a <= n * b)%Z -> ceil_div a b = n.
Proof.
  intros Hb Hn. pose proof (ceil_div_bounds a b Hb). nia.
Qed.

(** ** Blocking *)

Lemma block_at_length (x : list float64) (B H : Z) (n : nat) :
  (0 < H)%Z -> (0 <= B)%Z ->
  (Z.of_nat n < ceil_div (Z.of_nat (length x)) H)%Z ->
  length (block_at x B H n) = Z.to_nat B.
Proof.
  intros HH HB Hn. unfold block_at.
  pose proof (ceil_div_bounds (Z.of_nat (length x)) H HH) as Hc.
  rewrite length_firstn, length_skipn, length_app, repeat_length.
  assert (n * Z.to_nat H < length x)%nat by nia.
  lia.
Qed.

Lemma block_audio_ok (x : list float64) (B H : Z) (fs : R) :
  (1 <= H)%Z -> (0 <= B)%Z ->
  let rows := Z.to_nat (ceil_div (Z.of_nat (length x)) H) in
  block_audio x B H fs =
  Ok (map (block_at x B H) (seq 0 rows),
      map (fun n : nat => fdiv (Fin (IZR (Z.of_nat n * H))) (Fin fs)) (seq 0 rows)).
Proof.
  intros HH HB rows. unfold block_audio.
  destruct (Z.eqb_spec H 0) as [->|_]; [lia|].
  unfold Np.pad_right, Np.check_dim.
  destruct (Z.ltb_spec B 0) as [|_]; [lia|]. simpl bind.
  pose proof (ceil_div_nonneg (Z.of_nat (length x)) H ltac:(lia) ltac:(lia)) as Hnn.
  destruct (Z.ltb_spec (ceil_div (Z.of_nat (length x)) H) 0) as [|_]; [lia|].
  simpl bind. fold rows.
  rewrite (mapM_ok _ (block_at x B H)); [reflexivity|].
  intros n Hin. apply in_seq in Hin.
  assert (Hn : (Z.of_nat n < ceil_div (Z.of_nat (length x)) H)%Z) by (unfold rows in Hin; lia).
  pose proof (block_at_length x B H n ltac:(lia) HB Hn) as Hlen.
  pose proof (ceil_div_bounds (Z.of_nat (length x)) H ltac:(lia)) as Hc.
  assert (Hstart : (n * Z.to_nat H < length x)%nat) by nia.
  set (x' := x ++ repeat (Fin 0) (Z.to_nat B)).
  assert (Hx' : length x' = (length x + Z.to_nat B)%nat)
    by (unfold x'; now rewrite length_app, repeat_length).
  assert (Hsl : slice x' (Z.of_nat n * H)
                  (Z.min (Z.of_nat (length x')) (Z.of_nat n * H + B)) =
                block_at x B H n).
  { replace (Z.of_nat n * H)%Z with (Z.of_nat (n * Z.to_nat H)) by lia.
    replace (Z.min (Z.of_nat (length x')) (Z.of_nat (n * Z.to_nat H) + B))
      with (Z.of_nat (n * Z.to_nat H + Z.to_nat B)) by lia.
    rewrite slice_nat. unfold block_at. fold x'.
    rewrite !Nat.min_l by lia. f_equal. lia. }
  rewrite Hsl. unfold Np.assign_row. rewrite Hlen, Nat.eqb_refl. reflexivity.
Qed.

(** ** Autocorrelation *)

Lemma correlate_full_ok (a v : list float64) :
  a <> [] -> v <> [] ->
  Np.correlate_full a v =
  Ok (map (fun j => Np.corr_lag a v (Z.of_nat j - (Z.of_nat (length v) - 1)))
          (seq 0 (length a + length v - 1))).
Proof. destruct a, v; intros; try contradiction; reflexivity. Qed.

Lemma seq_from (s n : nat) : seq s n = map (fun k => (s + k)%nat) (seq 0 n).
Proof.
  revert s. induction n as [|n IH]; intros s; simpl; [reflexivity|].
  rewrite Nat.add_0_r. f_equal.
  rewrite IH, (IH 1%nat), map_map. apply map_ext. intros; lia.
Qed.

Lemma comp_acf_ok (x : list float64) (normalize : bool) :
  x <> [] ->
  comp_acf x normalize =
  Ok (map (fun k => fdiv (Np.dot (skipn k x) x)
                         (if normalize then Np.dot x x else Fin 1))
          (seq 0 (length x))).
Proof.
  intros Hx. unfold comp_acf. rewrite correlate_full_ok by assumption.
  set (n := length x).
  assert (Hn : (1 <= n)%nat) by (unfold n; destruct x; simpl; [contradiction|lia]).
  unfold bind.
  replace (Z.of_nat n - 1)%Z with (Z.of_nat (n - 1)) by lia.
  rewrite slice_suffix, skipn_map, skipn_seq, map_map.
  replace (n + n - 1 - (n - 1))%nat with n by lia.
  f_equal. rewrite seq_from, map_map.
  apply map_ext. intros k. unfold Np.corr_lag.
  replace (Z.of_nat (0 + (n - 1) + k) - Z.of_nat (n - 1))%Z with (Z.of_nat k) by lia.
  destruct (Z.leb_spec 0 (Z.of_nat k)) as [_|]; [|lia].
  now rewrite Nat2Z.id.
Qed.
Lemma dot_as_floats (a b : list R) :
  Np.dot (as_floats a) (as_floats b) = Fin (rdot a b).
Proof.
  revert b. induction a as [|u a IH]; intros [|v b]; simpl; try reflexivity.
  unfold as_floats in IH. now rewrite IH.
Qed.

Lemma skipn_as_floats (k : nat) (x : list R) :
  skipn k (as_floats x) = as_floats (skipn k x).
Proof. unfold as_floats. apply skipn_map. Qed.

Lemma rdot_self_nonneg (x : list R) : 0 <= rdot x x.
Proof. induction x as [|a x IH]; simpl; [lra|nra]. Qed.

Lemma rdot_self_zero (x : list R) : rdot x x = 0 -> Forall (eq 0) x.
Proof.
  induction x as [|a x IH]; simpl; intros H0; constructor.
  - pose proof (rdot_self_nonneg x). nra.
  - apply IH. pose proof (rdot_self_nonneg x). nra.
Qed.

Lemma rdot_zero_r (x y : list R) : Forall (eq 0) y -> rdot x y = 0.
Proof.
  intros Hy. revert x. induction Hy as [|b y Hb Hy IH]; intros [|a x]; simpl;
    try reflexivity.
  subst b. rewrite IH. lra.
Qed.

(** The sum of the products of neighbours is at most the energy. *)
Lemma rdot_lag1_le (a : R) (x : list R) :
  2 * rdot x (a :: x) + a * a <= 2 * rdot (a :: x) (a :: x).
Proof.
  revert a. induction x as [|b x IH]; intros a.
  - simpl. pose proof (Rle_0_sqr a) as Ha. unfold Rsqr in Ha. lra.
  - specialize (IH b).
    change (rdot (b :: x) (a :: b :: x)) with (b * a + rdot x (b :: x)).
    change (rdot (a :: b :: x) (a :: b :: x))
      with (a * a + rdot (b :: x) (b :: x)).
    pose proof (Rle_0_sqr (a - b)) as Hab. unfold Rsqr in Hab. lra.
Qed.

Lemma racf_lag1_le (x : list R) : rdot (skipn 1 x) x <= rdot x x.
Proof.
  destruct x as [|a x]; [simpl; lra|].
  pose proof (rdot_lag1_le a x) as H.
  pose proof (Rle_0_sqr a) as Ha. unfold Rsqr in Ha.
  change (skipn 1 (a :: x)) with x. lra.
Qed.

(** An array whose energy is finite holds finite values only. *)
Lemma dot_self_fin (x : list float64) (s : R) :
  Np.dot x x = Fin s -> exists xs, x = as_floats xs.
Proof.
  revert s. induction x as [|a x IH]; intros s H.
  - now exists [].
  - simpl in H. destruct a as [r| | |].
    + destruct (Np.dot x x) as [t| | |] eqn:Hd; simpl in H; try discriminate.
      destruct (IH t eq_refl) as [xs ->]. now exists (r :: xs).
    + simpl in H. unfold fmul in H. simpl in H.
      rewrite signed_inf_pos in H by lra.
      now destruct (Np.dot x x).
    + simpl in H. unfold fmul in H. simpl in H.
      rewrite signed_inf_pos in H by lra.
      now destruct (Np.dot x x).
    + discriminate.
Qed.

Lemma comp_acf_real (x : list R) (normalize : bool) :
  x <> [] ->
  comp_acf (as_floats x) normalize =
  Ok (map (fun c => fdiv (Fin c) (if normalize then Fin (rdot x x) else Fin 1))
          (racf x)).
Proof.
  intros Hx. rewrite comp_acf_ok by (destruct x; [contradiction|discriminate]).
  unfold racf. rewrite map_map.
  replace (length (as_floats x)) with (length x) by (symmetry; apply length_map).
  f_equal. apply map_ext. intros k.
  rewrite skipn_as_floats, !dot_as_floats. reflexivity.
Qed.

(** ** Peak location *)

Lemma diff_length (r : list float64) : length (Np.diff r) = (length r - 1)%nat.
Proof.
  induction r as [|a [|b r] IH]; simpl in *; try reflexivity.
  rewrite IH. lia.
Qed.

Lemma diff_nth (r : list float64) (k : nat) :
  (S k < length r)%nat ->
  nth k (Np.diff r) NaN = fsub (nth (S k) r NaN) (nth k r NaN).
Proof.
  revert k. induction r as [|a [|b r] IH]; intros k Hk; simpl in Hk; try lia.
  destruct k as [|k]; [reflexivity|].
  change (Np.diff (a :: b :: r)) with (fsub b a :: Np.diff (b :: r)).
  change (nth (S k) (fsub b a :: Np.diff (b :: r)) NaN)
    with (nth k (Np.diff (b :: r)) NaN).
  rewrite IH by (simpl; lia). reflexivity.
Qed.

Lemma where_gt0_from_nil (i : nat) (d : list float64) :
  Np.where_gt0_from i d = [] <-> Forall (fun v => flt (Fin 0) v = false) d.
Proof.
  revert i. induction d as [|v d IH]; intros i; cbn [Np.where_gt0_from].
  - split; auto.
  - destruct (flt (Fin 0) v) eqn:Hv.
    + split; [discriminate|]. intros H; inversion H; congruence.
    + split; intros H.
      * constructor; [assumption|]. now apply (IH (S i)).
      * apply IH. now inversion H.
Qed.

(** The head of [np.where(d > 0)[0]] is the first index of a positive entry. *)
Lemma where_gt0_from_head (i j : nat) (d : list float64) (rest : list nat) :
  Np.where_gt0_from i d = j :: rest ->
  exists k, j = (i + k)%nat /\ (k < length d)%nat /\
            flt (Fin 0) (nth k d NaN) = true /\
            forall k', (k' < k)%nat -> flt (Fin 0) (nth k' d NaN) = false.
Proof.
  revert i. induction d as [|v d IH]; intros i H; cbn [Np.where_gt0_from] in H;
    [discriminate|].
  destruct (flt (Fin 0) v) eqn:Hv.
  - inversion H; subst. exists 0%nat. cbn [nth length].
    repeat split; try lia; auto.
  - destruct (IH _ H) as [k [-> [Hk [Hpos Hfirst]]]].
    exists (S k). cbn [nth length]. repeat split; try lia; auto.
    intros [|k'] Hk'; [assumption|]. apply Hfirst. lia.
Qed.

Lemma where_gt0_from_first (i k : nat) (d : list float64) :
  (k < length d)%nat ->
  flt (Fin 0) (nth k d NaN) = true ->
  (forall k', (k' < k)%nat -> flt (Fin 0) (nth k' d NaN) = false) ->
  exists rest, Np.where_gt0_from i d = (i + k)%nat :: rest.
Proof.
  revert i k. induction d as [|v d IH]; intros i k Hk Hpos Hfirst; simpl in Hk; [lia|].
  cbn [Np.where_gt0_from]. destruct k as [|k].
  - cbn [nth] in Hpos. rewrite Hpos. rewrite Nat.add_0_r. eauto.
  - pose proof (Hfirst 0%nat ltac:(lia)) as H0. cbn [nth] in H0. rewrite H0.
    destruct (IH (S i) k) as [rest Hrest]; try lia; auto.
    + intros k' Hk'. apply (Hfirst (S k')). lia.
    + exists rest. rewrite Hrest. f_equal. lia.
Qed.

Lemma get_f0_no_peak (r : list float64) (fs : R) (interpolate : bool) :
  Forall (fun v => flt (Fin 0) v = false) (Np.diff r) ->
  get_f0_from_acf r fs interpolate = Ok (Fin 0).
Proof.
  intros H. unfold get_f0_from_acf, Np.where_gt0.
  apply (where_gt0_from_nil 0) in H. now rewrite H.
Qed.

Lemma argmax_scan_bound (best : float64) (besti i : nat) (l : list float64) :
  (besti < i)%nat -> (Np.argmax_scan best besti i l < i + length l)%nat.
Proof.
  revert best besti i. induction l as [|v l IH]; intros best besti i Hi; simpl.
  - lia.
  - destruct (isnan best); [lia|].
    destruct (fle v best).
    + specialize (IH best besti (S i) ltac:(lia)). lia.
    + specialize (IH v i (S i) ltac:(lia)). lia.
Qed.

Lemma argmax_bound (l : list float64) (m : nat) :
  Np.argmax l = Ok m -> (m < length l)%nat.
Proof.
  destruct l as [|v l]; simpl; [discriminate|].
  intros H; inversion H; subst.
  pose proof (argmax_scan_bound v 0 1 l ltac:(lia)). lia.
Qed.

Lemma argmax_total (l : list float64) :
  l <> [] -> exists m, Np.argmax l = Ok m.
Proof. destruct l; [contradiction|]. simpl; eauto. Qed.

(** The function, once the first rising difference [i] and the argmax [m] of
    the slice behind the cutoff are known. *)
Lemma get_f0_peak (r : list float64) (fs : R) (interpolate : bool)
  (i m : nat) (rest : list nat) :
  Np.where_gt0 (Np.diff r) = i :: rest ->
  Np.argmax (skipn (Nat.max 1 i + 1) r) = Ok m ->
  let f := (m + Nat.max 1 i + 1)%nat in
  (f < length r)%nat /\
  get_f0_from_acf r fs interpolate =
  Ok (fdiv (Fin fs)
        (if interpolate
         then fadd (Fin (INR f))
                (quadratic_interp (nth (f - 1) r NaN) (nth f r NaN)
                   (if (f + 1 =? length r)%nat then nth f r NaN
                    else nth (f + 1) r NaN))
         else Fin (INR f))).
Proof.
  intros Hw Ha f.
  pose proof (argmax_bound _ _ Ha) as Hm. rewrite length_skipn in Hm.
  assert (Hf : (f < length r)%nat) by (unfold f; lia).
  split; [assumption|].
  unfold get_f0_from_acf. rewrite Hw.
  replace (Z.of_nat (Nat.max 1 i) + 1)%Z with (Z.of_nat (Nat.max 1 i + 1)) by lia.
  rewrite slice_suffix, Ha. unfold bind at 1. fold f.
  assert (H0 : (0 <? f)%nat = true) by (apply Nat.ltb_lt; unfold f; lia).
  rewrite H0, andb_true_r.
  destruct interpolate; [|reflexivity].
  rewrite (getitem_ok r (f - 1) NaN) by lia.
  rewrite (getitem_ok r f NaN) by lia.
  cbn [bind].
  destruct (Nat.eqb_spec (f + 1) (length r)).
  - reflexivity.
  - rewrite (getitem_ok r (f + 1) NaN) by lia. reflexivity.
Qed.

Lemma nth_as_floats (r : list R) (k : nat) :
  (k < length r)%nat -> nth k (as_floats r) NaN = Fin (nth k r 0).
Proof.
  intros Hk. unfold as_floats.
  rewrite (nth_indep _ NaN (Fin 0)) by now rewrite length_map.
  apply (map_nth Fin).
Qed.

Lemma diff_as_floats_nth (r : list R) (k : nat) :
  (S k < length r)%nat ->
  nth k (Np.diff (as_floats r)) NaN = Fin (nth (S k) r 0 - nth k r 0).
Proof.
  intros Hk.
  rewrite diff_nth by (unfold as_floats; rewrite length_map; lia).
  rewrite !nth_as_floats by lia. reflexivity.
Qed.

Lemma flt_0_fin (x : R) : flt (Fin 0) (Fin x) = Rltb 0 x.
Proof. reflexivity. Qed.

Lemma first_rise_where (r : list R) (i : nat) :
  first_rise r i ->
  exists rest, Np.where_gt0 (Np.diff (as_floats r)) = i :: rest.
Proof.
  intros [Hi [Hrise Hfirst]].
  apply (where_gt0_from_first 0 i).
  - rewrite diff_length. unfold as_floats. rewrite length_map. lia.
  - rewrite diff_as_floats_nth by lia. rewrite flt_0_fin.
    apply Rltb_true. lra.
  - intros k Hk. rewrite diff_as_floats_nth by lia. rewrite flt_0_fin.
    apply Rltb_false. specialize (Hfirst k Hk). lra.
Qed.

Lemma argmax_scan_real (l : list R) (best : R) (besti i : nat) :
  let m := Np.argmax_scan (Fin best) besti i (as_floats l) in
  (m = besti /\ Forall (fun v => v <= best) l) \/
  (exists k, m = (i + k)%nat /\ (k < length l)%nat /\ best < nth k l 0 /\
             (forall j, (j < length l)%nat -> nth j l 0 <= nth k l 0) /\
             (forall j, (j < k)%nat -> nth j l 0 < nth k l 0)).
Proof.
  revert best besti i. induction l as [|v l IH]; intros best besti i; cbn zeta.
  - left. split; [reflexivity|constructor].
  - cbn [as_floats map Np.argmax_scan isnan fle].
    destruct (Rltb best v) eqn:Hbv; cbn [negb].
    + apply Rltb_true in Hbv.
      destruct (IH v i (S i)) as [[Hm Hall]|[k [Hm [Hk [Hgt [Hmax Hfst]]]]]];
        fold (as_floats l) in *; right.
      * exists 0%nat. rewrite Hm. cbn [nth length].
        repeat split; try lia; try assumption.
        intros [|j] Hj; [lra|].
        rewrite Forall_forall in Hall. apply Hall, nth_In. lia.
      * exists (S k). rewrite Hm. cbn [length].
        repeat split; try lia.
        -- cbn [nth]. lra.
        -- intros [|j] Hj; cbn [nth]; [lra|]. apply Hmax. lia.
        -- intros [|j] Hj; cbn [nth]; [lra|]. apply Hfst. lia.
    + apply Rltb_false in Hbv.
      destruct (IH best besti (S i)) as [[Hm Hall]|[k [Hm [Hk [Hgt [Hmax Hfst]]]]]];
        fold (as_floats l) in *.
      * left. split; [assumption|]. now constructor.
      * right. exists (S k). rewrite Hm. cbn [length].
        repeat split; try lia.
        -- cbn [nth]. lra.
        -- intros [|j] Hj; cbn [nth]; [lra|]. apply Hmax. lia.
        -- intros [|j] Hj; cbn [nth]; [lra|]. apply Hfst. lia.
Qed.

(** [np.argmax] of a real sequence: the first index of the largest value. *)
Lemma argmax_real (l : list R) :
  l <> [] ->
  exists m, Np.argmax (as_floats l) = Ok m /\ (m < length l)%nat /\
            (forall j, (j < length l)%nat -> nth j l 0 <= nth m l 0) /\
            (forall j, (j < m)%nat -> nth j l 0 < nth m l 0).
Proof.
  destruct l as [|v l]; [contradiction|]. intros _.
  cbn [as_floats map Np.argmax]. fold (as_floats l).
  destruct (argmax_scan_real l v 0 1) as [[Hm Hall]|[k [Hm [Hk [Hgt [Hmax Hfst]]]]]];
    rewrite Hm; eexists; (split; [reflexivity|]); cbn [length].
  - repeat split; try lia.
    intros [|j] Hj; cbn [nth]; [lra|].
    rewrite Forall_forall in Hall. apply Hall, nth_In. lia.
  - repeat split; try lia.
    + intros [|j] Hj; cbn [nth plus]; [lra|]. apply Hmax. lia.
    + intros [|j] Hj; cbn [nth plus]; [lra|]. apply Hfst. lia.
Qed.

(** ** Silence *)

Lemma flt_0_sub_self (v : float64) : flt (Fin 0) (fsub v v) = false.
Proof.
  destruct v as [x| | |]; try reflexivity.
  cbn [fsub]. rewrite flt_0_fin. apply Rltb_false. lra.
Qed.

Lemma diff_repeat (v : float64) (n : nat) :
  Np.diff (repeat v n) = repeat (fsub v v) (n - 1).
Proof.
  destruct n as [|n]; [reflexivity|].
  replace (S n - 1)%nat with n by lia.
  induction n as [|n IH]; [reflexivity|].
  change (Np.diff (repeat v (S (S n))))
    with (fsub v v :: Np.diff (repeat v (S n))).
  now rewrite IH.
Qed.

Lemma get_f0_repeat (v : float64) (n : nat) (fs : R) (interpolate : bool) :
  get_f0_from_acf (repeat v n) fs interpolate = Ok (Fin 0).
Proof.
  apply get_f0_no_peak. rewrite diff_repeat.
  apply Forall_forall. intros d Hd. apply repeat_spec in Hd. subst d.
  apply flt_0_sub_self.
Qed.

Lemma rdot_skipn_zero (x : list R) (k : nat) :
  Forall (eq 0) x -> rdot (skipn k x) x = 0.
Proof. intros Hx. now apply rdot_zero_r. Qed.

Lemma racf_zero (x : list R) :
  Forall (eq 0) x -> racf x = repeat 0 (length x).
Proof.
  intros Hx. unfold racf.
  transitivity (map (fun _ : nat => 0) (seq 0 (length x))).
  - apply map_ext. intros k. now apply rdot_skipn_zero.
  - now rewrite map_const, length_seq.
Qed.

(** A block of zero energy: every entry of the normalised autocorrelation is
    [0.0 / 0.0]. *)
Lemma comp_acf_zero_energy (x : list float64) :
  x <> [] -> Np.dot x x = Fin 0 ->
  comp_acf x true = Ok (repeat NaN (length x)).
Proof.
  intros Hx Hdot.
  destruct (dot_self_fin x 0 Hdot) as [xs ->].
  rewrite dot_as_floats in Hdot. injection Hdot as Hdot.
  rewrite comp_acf_real by (intros ->; now apply Hx).
  rewrite Hdot, racf_zero by now apply rdot_self_zero.
  rewrite map_repeat. rewrite fdiv_0_0.
  unfold as_floats. now rewrite length_map.
Qed.

Lemma repeat_zero_as_floats (n : nat) :
  repeat (Fin 0) n = as_floats (repeat 0 n).
Proof. unfold as_floats. now rewrite map_repeat. Qed.

Lemma Forall_repeat_zero (n : nat) : Forall (eq 0) (repeat 0 n).
Proof. apply Forall_forall. intros v Hv. apply repeat_spec in Hv. now subst. Qed.

Lemma comp_acf_silence (n : nat) (normalize : bool) :
  (1 <= n)%nat ->
  comp_acf (repeat (Fin 0) n) normalize =
  Ok (repeat (if normalize then NaN else Fin (0 / 1)) n).
Proof.
  intros Hn. rewrite repeat_zero_as_floats.
  rewrite comp_acf_real by (destruct n; [lia|discriminate]).
  rewrite racf_zero by apply Forall_repeat_zero.
  rewrite repeat_length, map_repeat. do 2 f_equal.
  destruct normalize.
  - rewrite rdot_zero_r by apply Forall_repeat_zero. apply fdiv_0_0.
  - apply fdiv_fin. lra.
Qed.

(** ** Scaling *)

Lemma scale_as_floats (k : R) (x : list R) :
  scale k (as_floats x) = as_floats (map (Rmult k) x).
Proof. unfold scale, as_floats. rewrite !map_map. reflexivity. Qed.

Lemma rdot_scale (k : R) (a b : list R) :
  rdot (map (Rmult k) a) (map (Rmult k) b) = k * k * rdot a b.
Proof.
  revert b. induction a as [|u a IH]; intros [|v b]; cbn [map rdot]; try lra.
  rewrite IH. lra.
Qed.

Lemma racf_scale (k : R) (x : list R) :
  racf (map (Rmult k) x) = map (Rmult (k * k)) (racf x).
Proof.
  unfold racf. rewrite length_map, map_map. apply map_ext. intros j.
  rewrite skipn_map. apply rdot_scale.
Qed.

Lemma fdiv_scale (k c e : R) :
  k <> 0 -> (e = 0 -> c = 0) ->
  fdiv (Fin (k * k * c)) (Fin (k * k * e)) = fdiv (Fin c) (Fin e).
Proof.
  intros Hk Hz. destruct (Req_dec_T e 0) as [He|He].
  - rewrite (Hz He), He. replace (k * k * 0) with 0 by lra. reflexivity.
  - assert (k * k <> 0) by nra.
    rewrite !fdiv_fin by nra. f_equal. now field.
Qed.

Lemma racf_zero_energy (x : list R) (c : R) :
  rdot x x = 0 -> In c (racf x) -> c = 0.
Proof.
  intros H0 Hc. rewrite racf_zero in Hc by now apply rdot_self_zero.
  now apply repeat_spec in Hc.
Qed.

Lemma comp_acf_empty (normalize : bool) : comp_acf [] normalize = Raise ValueError.
Proof. reflexivity. Qed.

(** ** RMS *)

Lemma block_rms_real (x : list R) :
  x <> [] ->
  block_rms (as_floats x) =
  Fin (Rmax epsilon (sqrt (rdot x x / INR (length x)))).
Proof.
  intros Hx. unfold block_rms.
  assert (Hn : 0 < INR (length x)).
  { apply lt_0_INR. destruct x; [contradiction|simpl; lia]. }
  rewrite dot_as_floats.
  replace (length (as_floats x)) with (length x)
    by (unfold as_floats; now rewrite length_map).
  rewrite fdiv_fin by lra.
  set (q := rdot x x / INR (length x)).
  assert (Hq : 0 <= q).
  { unfold q. apply Rmult_le_pos; [apply rdot_self_nonneg|].
    left. now apply Rinv_0_lt_compat. }
  cbn [fsqrt].
  replace (Rltb q 0) with false by (symmetry; apply Rltb_false; lra).
  cbn [flt].
  destruct (Rltb (sqrt q) epsilon) eqn:Hlt.
  - apply Rltb_true in Hlt. rewrite Rmax_left by lra. reflexivity.
  - apply Rltb_false in Hlt. rewrite Rmax_right by lra. reflexivity.
Qed.

(** ** Parameters *)


Lemma ceil_unique (r : R) (z : Z) : IZR z - 1 < r <= IZR z -> ceil r = z.
Proof.
  intros [H1 H2]. unfold ceil.
  assert (Hu : (1 - z)%Z = up (- r)).
  { apply tech_up; rewrite minus_IZR; lra. }
  lia.
Qed.

Lemma vibrato_fs_ok (fs : R) (hop_size : Z) :
  hop_size <> 0%Z -> vibrato_fs fs hop_size = Ok (fs / IZR hop_size).
Proof.
  intros H. unfold vibrato_fs. now destruct (Z.eqb_spec hop_size 0).
Qed.

Lemma block_audio_hop_zero (x : list float64) (B : Z) (fs : R) :
  block_audio x B 0 fs = Raise ZeroDivisionError.
Proof. reflexivity. Qed.

Lemma ceil_div_neg_hop (a b : Z) :
  (0 <= a)%Z -> (b < 0)%Z ->
  (ceil_div a b <= 0)%Z /\ (ceil_div a b < 0 <-> - b <= a)%Z.
Proof.
  intros Ha Hb. unfold ceil_div.
  pose proof (Z.div_mod (- a) b ltac:(lia)) as Hdm.
  pose proof (Z.mod_neg_bound (- a) b Hb) as Hr.
  split; [nia|]. split; intros; nia.
Qed.

Lemma block_audio_hop_negative (x : list float64) (B H : Z) (fs : R) :
  (H < 0)%Z -> (0 <= B)%Z ->
  block_audio x B H fs =
  if (- H <=? Z.of_nat (length x))%Z then Raise ValueError else Ok ([], []).
Proof.
  intros HH HB. unfold block_audio.
  destruct (Z.eqb_spec H 0); [lia|].
  unfold Np.pad_right. destruct (Z.ltb_spec B 0); [lia|]. cbn [bind].
  destruct (ceil_div_neg_hop (Z.of_nat (length x)) H ltac:(lia) HH) as [Hle Hiff].
  unfold Np.check_dim at 1.
  destruct (Z.leb_spec (- H) (Z.of_nat (length x))) as [Hl|Hl].
  - destruct (Z.ltb_spec (ceil_div (Z.of_nat (length x)) H) 0) as [|Hge];
      [reflexivity|]. apply Hiff in Hl. lia.
  - destruct (Z.ltb_spec (ceil_div (Z.of_nat (length x)) H) 0) as [Hlt|Hge].
    + apply Hiff in Hlt. lia.
    + cbn [bind]. unfold Np.check_dim. destruct (Z.ltb_spec B 0); [lia|].
      cbn [bind].
      replace (Z.to_nat (ceil_div (Z.of_nat (length x)) H)) with 0%nat by lia.
      reflexivity.
Qed.

(** ** The pitch of a block is always defined *)

Lemma fdiv_not_fin (c d : float64) :
  (forall s, d <> Fin s) -> fdiv c d = Fin 0 \/ fdiv c d = NaN.
Proof.
  intros Hd. destruct d as [s| | |]; [now destruct (Hd s)| | |];
    destruct c; cbn [fdiv]; auto.
Qed.

Lemma diff_zero_or_nan (r : list float64) :
  Forall (fun v => v = Fin 0 \/ v = NaN) r ->
  Forall (fun d => flt (Fin 0) d = false) (Np.diff r).
Proof.
  induction r as [|a [|b r] IH]; intros Hr; cbn [Np.diff]; try constructor.
  - inversion Hr as [|? ? Ha Hr']; subst.
    inversion Hr' as [|? ? Hb _]; subst.
    destruct Ha as [->| ->], Hb as [->| ->]; cbn [fsub fadd fopp flt];
      try reflexivity.
    apply Rltb_false. lra.
  - apply IH. now inversion Hr.
Qed.

Lemma racf_nth0 (x : list R) : x <> [] -> nth 0 (racf x) 0 = rdot x x.
Proof. destruct x; [contradiction|reflexivity]. Qed.

Lemma racf_nth1 (x : list R) :
  (2 <= length x)%nat -> nth 1 (racf x) 0 = rdot (skipn 1 x) x.
Proof. destruct x as [|a [|b x]]; simpl; intros; try lia. reflexivity. Qed.

Lemma racf_length (x : list R) : length (racf x) = length x.
Proof. unfold racf. now rewrite length_map, length_seq. Qed.

(** The first difference of a normalised autocorrelation is never positive:
    the rising difference the peak locator looks for is at index 1 or later. *)
Lemma acf_first_diff (x : list R) :
  rdot x x <> 0 -> (2 <= length x)%nat ->
  flt (Fin 0)
    (nth 0 (Np.diff (as_floats (map (fun c => c / rdot x x) (racf x)))) NaN)
  = false.
Proof.
  intros He Hlen.
  assert (Hpos : 0 < rdot x x) by (pose proof (rdot_self_nonneg x); lra).
  rewrite diff_as_floats_nth by (rewrite length_map, racf_length; lia).
  rewrite flt_0_fin. apply Rltb_false.
  rewrite !(nth_indep _ 0 (0 / rdot x x)) by (rewrite length_map, racf_length; lia).
  rewrite !(map_nth (fun c => c / rdot x x)).
  rewrite racf_nth0 by (destruct x; [simpl in Hlen; lia|discriminate]).
  rewrite racf_nth1 by assumption.
  pose proof (racf_lag1_le x) as Hle.
  assert (rdot (skipn 1 x) x / rdot x x <= rdot x x / rdot x x).
  { apply Rmult_le_compat_r; [|assumption]. left. now apply Rinv_0_lt_compat. }
  lra.
Qed.

Lemma get_f0_total_from (r : list float64) (fs : R) (interpolate : bool) :
  (forall i rest, Np.where_gt0 (Np.diff r) = i :: rest -> (1 <= i)%nat) ->
  exists v, get_f0_from_acf r fs interpolate = Ok v.
Proof.
  intros Hfirst.
  destruct (Np.where_gt0 (Np.diff r)) as [|i rest] eqn:Hw.
  - exists (Fin 0). unfold get_f0_from_acf. now rewrite Hw.
  - pose proof (Hfirst i rest eq_refl) as Hi.
    destruct (where_gt0_from_head 0 i (Np.diff r) rest Hw) as [k [Hk [Hlt _]]].
    simpl in Hk. subst k. rewrite diff_length in Hlt.
    destruct (argmax_total (skipn (Nat.max 1 i + 1) r)) as [m Hm].
    { intros E. apply (f_equal (@length float64)) in E.
      rewrite length_skipn in E. cbn [length] in E. lia. }
    destruct (get_f0_peak r fs interpolate i m rest Hw Hm) as [_ ->]. eauto.
Qed.

Lemma pitch_of_block_total (x : list float64) (fs : R) (interpolate : bool) :
  x <> [] ->
  exists v, (r <- comp_acf x true ;; get_f0_from_acf r fs interpolate) = Ok v.
Proof.
  intros Hx.
  destruct (Np.dot x x) as [s| | |] eqn:Hd.
  - destruct (dot_self_fin x s Hd) as [xs ->].
    assert (Hxs : xs <> []) by (intros ->; now apply Hx).
    rewrite dot_as_floats in Hd. injection Hd as Hd.
    destruct (Req_dec_T s 0) as [Hs|Hs].
    + rewrite comp_acf_zero_energy; [|assumption|rewrite dot_as_floats; congruence].
      cbn [bind]. rewrite get_f0_repeat. eauto.
    + rewrite comp_acf_real by assumption. cbn [bind]. rewrite Hd.
      assert (Hr : map (fun c => fdiv (Fin c) (Fin s)) (racf xs) =
                   as_floats (map (fun c => c / s) (racf xs))).
      { unfold as_floats. rewrite map_map. apply map_ext. intros c.
        now apply fdiv_fin. }
      rewrite Hr. apply get_f0_total_from. intros i rest Hw.
      destruct i as [|i]; [|lia]. exfalso.
      destruct (where_gt0_from_head 0 0 _ rest Hw) as [k [Hk [Hlt [Hpos _]]]].
      simpl in Hk. subst k.
      rewrite diff_length in Hlt. unfold as_floats in Hlt.
      rewrite !length_map, racf_length in Hlt.
      subst s. rewrite acf_first_diff in Hpos by (assumption || lia).
      discriminate.
  - rewrite comp_acf_ok by assumption. cbn [bind]. rewrite Hd.
    rewrite get_f0_no_peak; [eauto|]. apply diff_zero_or_nan.
    apply Forall_forall. intros v Hv. apply in_map_iff in Hv as [k [<- _]].
    apply fdiv_not_fin. discriminate.
  - rewrite comp_acf_ok by assumption. cbn [bind]. rewrite Hd.
    rewrite get_f0_no_peak; [eauto|]. apply diff_zero_or_nan.
    apply Forall_forall. intros v Hv. apply in_map_iff in Hv as [k [<- _]].
    apply fdiv_not_fin. discriminate.
  - rewrite comp_acf_ok by assumption. cbn [bind]. rewrite Hd.
    rewrite get_f0_no_peak; [eauto|]. apply diff_zero_or_nan.
    apply Forall_forall. intros v Hv. apply in_map_iff in Hv as [k [<- _]].
    apply fdiv_not_fin. discriminate.
Qed.

(** ** Window rates *)

Lemma remove_mean_length (x : list float64) :
  length (fst (remove_mean x)) = length x.
Proof. unfold remove_mean. cbn [fst]. apply length_map. Qed.

Lemma nonempty_length {A : Type} (l : list A) : (1 <= length l)%nat -> l <> [].
Proof. destruct l; simpl; [lia|discriminate]. Qed.

Lemma vibrato_frequency_total (f0 : list float64) (rate : R)
  (f0_is_normalized interpolate : bool) :
  (1 <= length f0)%nat ->
  exists v, vibrato_frequency f0 rate f0_is_normalized interpolate = Ok v.
Proof.
  intros Hlen. unfold vibrato_frequency.
  apply pitch_of_block_total. apply nonempty_length.
  destruct f0_is_normalized; cbn [negb]; [assumption|].
  now rewrite remove_mean_length.
Qed.

Lemma find_vibrato_freq_from_f0_total (w : list float64) (rate : R)
  (interpolate : bool) :
  (1 <= length w)%nat -> exists v, find_vibrato_freq_from_f0 w rate interpolate = Ok v.
Proof. apply vibrato_frequency_total. Qed.

Lemma find_vibrato_freq_from_rms_total (w : list float64) (rate : R)
  (interpolate : bool) :
  (1 <= length w)%nat -> exists v, find_vibrato_freq_from_rms w rate interpolate = Ok v.
Proof.
  intros Hlen. unfold find_vibrato_freq_from_rms.
  destruct (vibrato_frequency_total w rate false interpolate Hlen) as [v ->].
  cbn [bind]. eauto.
Qed.

Lemma In_firstn {A : Type} (n : nat) (l : list A) (a : A) :
  In a (firstn n l) -> In a l.
Proof.
  revert l. induction n as [|n IH]; intros [|b l]; simpl; auto; try tauto.
  intros [->|H]; auto.
Qed.

(** Cutting [hop_denominator - 1] windows of at least that many: the first
    [length windows - (hop_denominator - 1)] windows and times remain. *)
Lemma rates_of_windows_ok (rate : list float64 -> result float64)
  (windows : list (list float64)) (times : list float64) (hd : Z) :
  (forall w, In w windows -> exists v, rate w = Ok v) ->
  (1 <= hd)%Z -> (hd - 1 <= Z.of_nat (length windows))%Z ->
  length times = length windows ->
  let n := Z.to_nat (Z.of_nat (length windows) - (hd - 1)) in
  exists params,
    rates_of_windows rate windows times hd = Ok (params, firstn n times) /\
    length params = n /\ length (firstn n times) = n.
Proof.
  intros Hrate Hhd Hcut Hlen n. unfold rates_of_windows.
  assert (Hn : (Z.of_nat (length windows) - (hd - 1))%Z = Z.of_nat n)
    by (unfold n; lia).
  assert (Hnle : (n <= length windows)%nat) by lia.
  rewrite Hn. unfold Np.check_dim.
  destruct (Z.ltb_spec (Z.of_nat n) 0); [lia|]. cbn [bind].
  rewrite Nat2Z.id, !slice_prefix by lia.
  destruct (mapM_total
              (fun i : nat => window <- getitem (firstn n windows) i ;; rate window)
              (seq 0 n)) as [params [-> Hlp]].
  { intros i Hi. apply in_seq in Hi.
    rewrite (getitem_ok _ i []) by (rewrite length_firstn; lia).
    cbn [bind]. apply Hrate.
    apply (In_firstn n). apply nth_In. rewrite length_firstn. lia. }
  cbn [bind]. exists params. rewrite length_seq in Hlp.
  repeat split; [assumption|]. rewrite length_firstn. lia.
Qed.

Lemma rates_of_windows_short (rate : list float64 -> result float64)
  (windows : list (list float64)) (times : list float64) (hd : Z) :
  (Z.of_nat (length windows) < hd - 1)%Z ->
  rates_of_windows rate windows times hd = Raise ValueError.
Proof.
  intros Hshort. unfold rates_of_windows, Np.check_dim.
  destruct (Z.ltb_spec (Z.of_nat (length windows) - (hd - 1)) 0); [|lia].
  reflexivity.
Qed.

Lemma blocks_nonempty (x : list float64) (B H : Z) (w : list float64) :
  (1 <= H)%Z -> (1 <= B)%Z ->
  In w (map (block_at x B H)
          (seq 0 (Z.to_nat (ceil_div (Z.of_nat (length x)) H)))) ->
  (1 <= length w)%nat.
Proof.
  intros HH HB Hw. apply in_map_iff in Hw as [n [<- Hn]]. apply in_seq in Hn.
  pose proof (ceil_div_nonneg (Z.of_nat (length x)) H ltac:(lia) ltac:(lia)).
  rewrite block_at_length; lia.
Qed.

Lemma track_pitch_acf_ok (x : list float64) (B H : Z) (rate : R)
  (interpolate : bool) :
  (1 <= H)%Z -> (1 <= B)%Z ->
  exists f0 t,
    track_pitch_acf x B H rate interpolate = Ok (f0, t) /\
    length f0 = Z.to_nat (ceil_div (Z.of_nat (length x)) H).
Proof.
  intros HH HB. unfold track_pitch_acf.
  rewrite block_audio_ok by lia. cbn [bind].
  destruct (mapM_total
              (fun block => r <- comp_acf block true ;;
                            get_f0_from_acf r rate interpolate)
              (map (block_at x B H)
                 (seq 0 (Z.to_nat (ceil_div (Z.of_nat (length x)) H)))))
    as [f0 [-> Hlen]].
  { intros w Hw. apply pitch_of_block_total, nonempty_length.
    now apply (blocks_nonempty x B H). }
  cbn [bind]. do 2 eexists. split; [reflexivity|].
  now rewrite Hlen, length_map, length_seq.
Qed.

Lemma track_rms_ok (x : list float64) (B H : Z) (rate : R) :
  (1 <= H)%Z -> (0 <= B)%Z ->
  exists rms t,
    track_rms x B H rate = Ok (rms, t) /\
    length rms = Z.to_nat (ceil_div (Z.of_nat (length x)) H).
Proof.
  intros HH HB. unfold track_rms. rewrite block_audio_ok by lia. cbn [bind].
  do 2 eexists. split; [reflexivity|].
  unfold extract_rms. now rewrite !length_map, length_seq.
Qed.

(** ** The vibrato trackers *)

Lemma track_vibrato_freq_eq `{ScipySignal} (x : list float64)
  (p : VibratoTrackerParams) :
  track_vibrato_freq x p =
  ('(f0, rate) <- track_vibrato_contour x p ;;
   '(windows, times) <- block_audio f0 (window_size p) (window_hop_size p) rate ;;
   rates_of_windows (fun w => find_vibrato_freq_from_f0 w rate true)
     windows times (hop_denominator p)).
Proof. reflexivity. Qed.

Lemma track_rms_vibrato_freq_eq (x : list float64) (p : VibratoTrackerParams) :
  track_rms_vibrato_freq x p =
  ('(rms, t) <- track_rms x (block_size p) (hop_size p) (fs p) ;;
   rate <- vibrato_fs (fs p) (hop_size p) ;;
   '(windows, times) <- block_audio rms (window_size p) (window_hop_size p) rate ;;
   rates_of_windows (fun w => find_vibrato_freq_from_rms w rate true)
     windows times (hop_denominator p)).
Proof. reflexivity. Qed.

Lemma passthrough_laws : ScipySignalLaws passthrough.
Proof. split; reflexivity. Qed.

Lemma default_params_init :
  VibratoTrackerParams_init 2048 1024 44100 no_kwargs = Ok default_params.
Proof.
  unfold VibratoTrackerParams_init.
  rewrite vibrato_fs_ok by lia.
  cbn [bind kwargs_get no_kwargs kw_hop_denominator kw_window_duration
       kw_filter kw_interpolate].
  change (DEFAULT_HOP_DENOM =? 0)%Z with false. cbv iota.
  assert (Hc : ceil (44100 / IZR 1024 * DEFAULT_WINDOW_DUR) = 22%Z).
  { apply ceil_unique. unfold DEFAULT_WINDOW_DUR. lra. }
  rewrite Hc. reflexivity.
Qed.

Lemma filtered_contour_length `{L : ScipySignalLaws} (f0 : list float64) (rate : R) :
  length (filtered_contour f0 rate) = length f0.
Proof.
  unfold filtered_contour, vibrato_lpf, median_filter.
  destruct (buttord _ _ _ _ _) as [N wn]. destruct (butter _ _ _) as [b a].
  now rewrite lfilter_length, medfilt_length, remove_mean_length.
Qed.

Lemma track_vibrato_contour_ok `{L : ScipySignalLaws} (x : list float64)
  (p : VibratoTrackerParams) :
  (1 <= hop_size p)%Z -> (1 <= block_size p)%Z ->
  exists f0 rate,
    track_vibrato_contour x p = Ok (f0, rate) /\
    length f0 = Z.to_nat (ceil_div (Z.of_nat (length x)) (hop_size p)).
Proof.
  intros HH HB. unfold track_vibrato_contour, compute_processed_f0.
  destruct (track_pitch_acf_ok x (block_size p) (hop_size p) (fs p)
              (interpolate p) HH HB) as [f0 [t [-> Hlen]]].
  cbn [bind]. rewrite vibrato_fs_ok by lia. cbn [bind truthy].
  do 2 eexists. split; [reflexivity|].
  fold (filtered_contour f0 (fs p / IZR (hop_size p))).
  now rewrite filtered_contour_length.
Qed.

Lemma mapM_nth {A B : Type} (f : A -> result B) (l : list A) (bs : list B) :
  mapM f l = Ok bs ->
  forall (i : nat) (a0 : A) (b0 : B),
    (i < length l)%nat -> f (nth i l a0) = Ok (nth i bs b0).
Proof.
  revert bs. induction l as [|a l IH]; intros bs H i a0 b0 Hi;
    cbn [length] in Hi; [lia|].
  cbn [mapM] in H. destruct (f a) as [b|e] eqn:Hb; cbn [bind] in H; [|discriminate].
  destruct (mapM f l) as [bs'|e] eqn:Hbs; cbn [bind] in H; [|discriminate].
  injection H as <-. destruct i as [|i]; cbn [nth]; [assumption|].
  apply (IH bs' eq_refl). lia.
Qed.

Lemma nth_firstn_lt {A : Type} (n i : nat) (l : list A) (d : A) :
  (i < n)%nat -> nth i (firstn n l) d = nth i l d.
Proof.
  revert i l. induction n as [|n IH]; intros i l Hi; [lia|].
  destruct l as [|a l]; [reflexivity|].
  destruct i as [|i]; cbn [firstn nth]; [reflexivity|]. apply IH. lia.
Qed.

(** What the cut keeps: the first [length windows - (hop_denominator - 1)]
    windows, in order, each with its rate and its time. *)
Lemma rates_of_windows_first (rate : list float64 -> result float64)
  (windows : list (list float64)) (times : list float64) (hd : Z) :
  (forall w, In w windows -> exists v, rate w = Ok v) ->
  (1 <= hd)%Z -> (hd - 1 <= Z.of_nat (length windows))%Z ->
  length times = length windows ->
  let n := Z.to_nat (Z.of_nat (length windows) - (hd - 1)) in
  exists params,
    rates_of_windows rate windows times hd = Ok (params, firstn n times) /\
    length params = n /\
    forall i, (i < n)%nat -> rate (nth i windows []) = Ok (nth i params NaN).
Proof.
  intros Hrate Hhd Hcut Hlen n. unfold rates_of_windows.
  assert (Hn : (Z.of_nat (length windows) - (hd - 1))%Z = Z.of_nat n)
    by (unfold n; lia).
  assert (Hnle : (n <= length windows)%nat) by lia.
  rewrite Hn. unfold Np.check_dim.
  destruct (Z.ltb_spec (Z.of_nat n) 0); [lia|]. cbn [bind].
  rewrite Nat2Z.id, !slice_prefix by lia.
  destruct (mapM_total
              (fun i : nat => window <- getitem (firstn n windows) i ;; rate window)
              (seq 0 n)) as [params [Hm Hlp]].
  { intros i Hi. apply in_seq in Hi.
    rewrite (getitem_ok _ i []) by (rewrite length_firstn; lia).
    cbn [bind]. apply Hrate.
    apply (In_firstn n). apply nth_In. rewrite length_firstn. lia. }
  rewrite Hm. cbn [bind]. exists params. rewrite length_seq in Hlp.
  split; [reflexivity|]. split; [assumption|].
  intros i Hi.
  pose proof (mapM_nth _ _ _ Hm i 0%nat NaN) as Hi'.
  rewrite length_seq, seq_nth in Hi' by assumption. specialize (Hi' Hi).
  cbn [plus] in Hi'.
  rewrite (getitem_ok _ i []) in Hi' by (rewrite length_firstn; lia).
  cbn [bind] in Hi'. now rewrite nth_firstn_lt in Hi' by assumption.
Qed.

(** The windows of a contour of which enough exist: the rates are those of
    the first [n] windows that [block_audio] returns, the times their start
    times; the last [hop_denominator - 1] windows are dropped. *)
Lemma windows_rates_first (rate : list float64 -> result float64)
  (contour : list float64) (wsize whop hd : Z) (sr : R) :
  (forall w, (1 <= length w)%nat -> exists v, rate w = Ok v) ->
  (1 <= wsize)%Z -> (1 <= whop)%Z -> (1 <= hd)%Z ->
  let n := (ceil_div (Z.of_nat (length contour)) whop - (hd - 1))%Z in
  (0 <= n)%Z ->
  exists windows all_times rates times,
    block_audio contour wsize whop sr = Ok (windows, all_times) /\
    Z.of_nat (length windows) = (n + (hd - 1))%Z /\
    ('(windows, times) <- block_audio contour wsize whop sr ;;
     rates_of_windows rate windows times hd) = Ok (rates, times) /\
    Z.of_nat (length rates) = n /\ Z.of_nat (length times) = n /\
    forall i, (Z.of_nat i < n)%Z ->
      rate (nth i windows []) = Ok (nth i rates NaN) /\
      nth i times NaN = nth i all_times NaN.
Proof.
  intros Hrate Hws Hwh Hhd n Hn.
  rewrite block_audio_ok by lia. cbn [bind].
  set (rows := Z.to_nat (ceil_div (Z.of_nat (length contour)) whop)).
  pose proof (ceil_div_nonneg (Z.of_nat (length contour)) whop
                ltac:(lia) ltac:(lia)) as Hnn.
  set (stamp := fun k : nat => fdiv (Fin (IZR (Z.of_nat k * whop))) (Fin sr)).
  destruct (rates_of_windows_first rate
              (map (block_at contour wsize whop) (seq 0 rows))
              (map stamp (seq 0 rows)) hd) as [rates [-> [Hlr Hnth]]].
  - intros w Hw. apply Hrate. now apply (blocks_nonempty contour wsize whop).
  - assumption.
  - rewrite length_map, length_seq. unfold rows, n in *. lia.
  - now rewrite !length_map, !length_seq.
  - rewrite length_map, length_seq in *.
    assert (Hk : Z.to_nat (Z.of_nat rows - (hd - 1)) = Z.to_nat n)
      by (unfold rows, n; lia).
    rewrite Hk in *.
    assert (Hrows : (Z.to_nat n <= rows)%nat) by (unfold rows, n in *; lia).
    do 4 eexists. split; [reflexivity|].
    split; [rewrite length_map, length_seq; unfold rows, n; lia|].
    split; [reflexivity|].
    split; [lia|]. split; [rewrite length_firstn, length_map, length_seq; lia|].
    intros i Hi. assert (Hi' : (i < Z.to_nat n)%nat) by lia. split.
    + now apply Hnth.
    + now apply nth_firstn_lt.
Qed.

(** * Main results *)

(** C1 (code defect).  With [filter = False] in the parameters
    [track_vibrato_freq] still analyses the median-filtered and low-pass
    filtered contour: the argument it passes for [filter] is the builtin of
    that name, not the field, so the result is the one for [filter = True],
    where mean removal alone (the contour of [compute_processed_f0] called
    with [False]) is what the claim describes. *)
Theorem track_vibrato_filters_regardless `{ScipySignal} (x : list float64)
  (p : VibratoTrackerParams) :
  filter (with_filter false p) = false /\
  track_vibrato_contour x (with_filter false p) =
    ('(f0, _) <- track_pitch_acf x (block_size p) (hop_size p) (fs p)
                   (interpolate p) ;;
     acf_fs <- vibrato_fs (fs p) (hop_size p) ;;
     Ok (filtered_contour f0 acf_fs, acf_fs)) /\
  compute_processed_f0 x (block_size p) (hop_size p) (fs p) (PyBool false)
      (interpolate p) =
    ('(f0, _) <- track_pitch_acf x (block_size p) (hop_size p) (fs p)
                   (interpolate p) ;;
     acf_fs <- vibrato_fs (fs p) (hop_size p) ;;
     Ok (fst (remove_mean f0), acf_fs)) /\
  track_vibrato_freq x (with_filter false p) =
    track_vibrato_freq x (with_filter true p).
Proof.
  split; [reflexivity|]. split; [|split; [|reflexivity]].
  - unfold track_vibrato_contour, compute_processed_f0. cbn [truthy].
    destruct (track_pitch_acf _ _ _ _ _) as [[f0 t]|e]; reflexivity.
  - unfold compute_processed_f0. cbn [truthy].
    destruct (track_pitch_acf _ _ _ _ _) as [[f0 t]|e]; reflexivity.
Qed.

(** C2 (code defect).  [comp_acf] on the all-zero block of three samples with
    [normalize=True]: the zero-lag energy is 0 and every entry of the result
    is [0.0 / 0.0], NaN, where the claim asks for zeros.
    [comp_acf_zero_energy] shows the same for every block of zero energy. *)
Theorem comp_acf_zero_block_is_nan :
  Np.dot [Fin 0; Fin 0; Fin 0] [Fin 0; Fin 0; Fin 0] = Fin 0 /\
  comp_acf [Fin 0; Fin 0; Fin 0] true = Ok [NaN; NaN; NaN].
Proof.
  assert (H : Np.dot [Fin 0; Fin 0; Fin 0] [Fin 0; Fin 0; Fin 0] = Fin 0).
  { cbn [Np.dot fmul fadd]. f_equal. lra. }
  split; [exact H|].
  now rewrite comp_acf_zero_energy.
Qed.




(** C4 (amended).  With a hop size, a block size, a window size, a window hop
    size and a hop denominator of at least 1, for a signal whose contour has
    at least [hop_denominator - 1] windows, and with scipy's filters taken to
    return an array as long as their input (the interface [ScipySignal]; an
    exception of [buttord] or [butter] would be the tracker's),
    [track_vibrato_freq] and [track_rms_vibrato_freq] return.  The contour has
    [ceil(len(x) / hop_size)] values and [block_audio] makes
    [ceil(contour_length / window_hop_size)] windows of it; the rate and time
    arrays both have [n], that number less [hop_denominator - 1], entries;
    entry [i] of the rates is the rate of window [i] and entry [i] of the
    times the start time of window [i], for [i] from 0 to [n - 1]: the windows
    dropped are the final [hop_denominator - 1]. *)
Theorem trackers_cut_last_windows `{L : ScipySignalLaws} (x : list float64)
  (p : VibratoTrackerParams) :
  (1 <= hop_size p)%Z -> (1 <= block_size p)%Z ->
  (1 <= window_size p)%Z -> (1 <= window_hop_size p)%Z ->
  (1 <= hop_denominator p)%Z ->
  let contour_length := ceil_div (Z.of_nat (length x)) (hop_size p) in
  let n := (ceil_div contour_length (window_hop_size p)
            - (hop_denominator p - 1))%Z in
  (0 <= n)%Z ->
  (exists contour rate windows all_times rates times,
      compute_processed_f0 x (block_size p) (hop_size p) (fs p)
        PyBuiltinFilter (interpolate p) = Ok (contour, rate) /\
      Z.of_nat (length contour) = contour_length /\
      block_audio contour (window_size p) (window_hop_size p) rate
        = Ok (windows, all_times) /\
      Z.of_nat (length windows) = (n + (hop_denominator p - 1))%Z /\
      track_vibrato_freq x p = Ok (rates, times) /\
      Z.of_nat (length rates) = n /\ Z.of_nat (length times) = n /\
      forall i, (Z.of_nat i < n)%Z ->
        find_vibrato_freq_from_f0 (nth i windows []) rate true
          = Ok (nth i rates NaN) /\
        nth i times NaN = nth i all_times NaN) /\
  (exists rms t windows all_times rates times,
      track_rms x (block_size p) (hop_size p) (fs p) = Ok (rms, t) /\
      Z.of_nat (length rms) = contour_length /\
      block_audio rms (window_size p) (window_hop_size p)
        (fs p / IZR (hop_size p)) = Ok (windows, all_times) /\
      Z.of_nat (length windows) = (n + (hop_denominator p - 1))%Z /\
      track_rms_vibrato_freq x p = Ok (rates, times) /\
      Z.of_nat (length rates) = n /\ Z.of_nat (length times) = n /\
      forall i, (Z.of_nat i < n)%Z ->
        find_vibrato_freq_from_rms (nth i windows [])
          (fs p / IZR (hop_size p)) true
          = Ok (nth i rates NaN) /\
        nth i times NaN = nth i all_times NaN).
Proof.
  intros HH HB Hws Hwh Hhd contour_length n Hn.
  pose proof (ceil_div_nonneg (Z.of_nat (length x)) (hop_size p)
                ltac:(lia) ltac:(lia)) as Hnn.
  split.
  - rewrite track_vibrato_freq_eq.
    destruct (track_vibrato_contour_ok x p HH HB) as [f0 [rate [Hc Hlen]]].
    rewrite Hc. cbn [bind]. unfold track_vibrato_contour in Hc.
    assert (Hn' : n = (ceil_div (Z.of_nat (length f0)) (window_hop_size p)
                       - (hop_denominator p - 1))%Z)
      by (unfold n, contour_length;
          rewrite Hlen, Z2Nat.id by assumption; reflexivity).
    destruct (windows_rates_first
                (fun w => find_vibrato_freq_from_f0 w rate true)
                f0 (window_size p) (window_hop_size p) (hop_denominator p) rate)
      as [windows [all_times [rates [times [Hb [Hlw [Hr [Hlr [Hlt Hnth]]]]]]]]];
      try assumption.
    + intros w Hw. now apply find_vibrato_freq_from_f0_total.
    + rewrite <- Hn'. exact Hn.
    + exists f0, rate, windows, all_times, rates, times. rewrite <- Hn' in *.
      split; [exact Hc|].
      split; [unfold contour_length; rewrite Hlen; lia|].
      split; [exact Hb|]. split; [exact Hlw|]. split; [exact Hr|].
      split; [exact Hlr|]. split; [exact Hlt|]. exact Hnth.
  - rewrite track_rms_vibrato_freq_eq.
    destruct (track_rms_ok x (block_size p) (hop_size p) (fs p) HH ltac:(lia))
      as [rms [t [Hc Hlen]]].
    rewrite Hc. cbn [bind]. rewrite vibrato_fs_ok by lia. cbn [bind].
    assert (Hn' : n = (ceil_div (Z.of_nat (length rms)) (window_hop_size p)
                       - (hop_denominator p - 1))%Z)
      by (unfold n, contour_length;
          rewrite Hlen, Z2Nat.id by assumption; reflexivity).
    destruct (windows_rates_first
                (fun w => find_vibrato_freq_from_rms w (fs p / IZR (hop_size p)) true)
                rms (window_size p) (window_hop_size p) (hop_denominator p)
                (fs p / IZR (hop_size p)))
      as [windows [all_times [rates [times [Hb [Hlw [Hr [Hlr [Hlt Hnth]]]]]]]]];
      try assumption.
    + intros w Hw. now apply find_vibrato_freq_from_rms_total.
    + rewrite <- Hn'. exact Hn.
    + exists rms, t, windows, all_times, rates, times. rewrite <- Hn' in *.
      split; [reflexivity|].
      split; [unfold contour_length; rewrite Hlen; lia|].
      split; [exact Hb|]. split; [exact Hlw|]. split; [exact Hr|].
      split; [exact Hlr|]. split; [exact Hlt|]. exact Hnth.
Qed.

(** C4, counterexample.  With the parameters of
    [VibratoTrackerParams(2048, 1024, 44100)] a signal of three samples has a
    contour of one value and one window; four windows are to be cut, the
    number of windows left is -3, and [np.zeros] raises [ValueError]: no
    array is returned. *)
Lemma trackers_cut_last_windows_counterexample :
  VibratoTrackerParams_init 2048 1024 44100 no_kwargs = Ok default_params /\
  (ceil_div (ceil_div 3 1024) 5 - (5 - 1) = -3)%Z /\
  track_rms_vibrato_freq [Fin 1; Fin 2; Fin 3] default_params = Raise ValueError.
Proof.
  split; [apply default_params_init|]. split; [reflexivity|].
  rewrite track_rms_vibrato_freq_eq.
  destruct (track_rms_ok [Fin 1; Fin 2; Fin 3] (block_size default_params)
              (hop_size default_params) (fs default_params))
    as [rms [t [-> Hlen]]]; [cbn; lia|cbn; lia|].
  cbn [bind]. rewrite vibrato_fs_ok by (cbn; lia). cbn [bind].
  rewrite block_audio_ok by (cbn; lia). cbn [bind].
  apply rates_of_windows_short.
  rewrite length_map, length_seq, Hlen. reflexivity.
Qed.

Lemma trackers_cut_last_windows_witness :
  let p := {| block_size := 2; hop_size := 1; fs := 8;
              filter := false; interpolate := true;
              hop_denominator := 2; window_duration := 0.5;
              acf_fs := 8; window_size := 4; window_hop_size := 2 |} in
  let x := as_floats [1; 2; 3; 2; 1; 2] in
  (exists contour rate windows all_times rates times,
      @compute_processed_f0 passthrough x 2 1 8 PyBuiltinFilter true
        = Ok (contour, rate) /\
      Z.of_nat (length contour) = 6%Z /\
      block_audio contour 4 2 rate = Ok (windows, all_times) /\
      Z.of_nat (length windows) = 3%Z /\
      @track_vibrato_freq passthrough x p = Ok (rates, times) /\
      Z.of_nat (length rates) = 2%Z /\ Z.of_nat (length times) = 2%Z /\
      forall i, (Z.of_nat i < 2)%Z ->
        find_vibrato_freq_from_f0 (nth i windows []) rate true
          = Ok (nth i rates NaN) /\
        nth i times NaN = nth i all_times NaN) /\
  (exists rms t windows all_times rates times,
      track_rms x 2 1 8 = Ok (rms, t) /\
      Z.of_nat (length rms) = 6%Z /\
      block_audio rms 4 2 (8 / IZR 1) = Ok (windows, all_times) /\
      Z.of_nat (length windows) = 3%Z /\
      track_rms_vibrato_freq x p = Ok (rates, times) /\
      Z.of_nat (length rates) = 2%Z /\ Z.of_nat (length times) = 2%Z /\
      forall i, (Z.of_nat i < 2)%Z ->
        find_vibrato_freq_from_rms (nth i windows []) (8 / IZR 1) true
          = Ok (nth i rates NaN) /\
        nth i times NaN = nth i all_times NaN).
Proof.
  intros p x.
  apply (@trackers_cut_last_windows passthrough passthrough_laws x p);
    cbn; lia.
Defined.

(** C5 (amended).  For a real ACF vector whose first strictly positive first
    difference is at index [i] and which is longer than [cutoff + 1], where
    [cutoff = max(1, i)]: the peak lag [f] is the first index behind [cutoff]
    of the largest entry of [r[cutoff+1:]], that is
    [argmax(r[cutoff+1:]) + cutoff + 1]; with interpolation the quadratic
    offset of [r[f-1]], [r[f]] and [r[f+1]] (the right neighbour being [r[f]]
    when [f] is the last index) is added to [f]; the function returns
    [fs / f]. *)
Theorem locate_peak_algorithm (r : list R) (fs : R) (interpolate : bool) (i : nat) :
  first_rise r i ->
  (Nat.max 1 i + 1 < length r)%nat ->
  exists f,
    peak_after r (Nat.max 1 i) f /\
    get_f0_from_acf (as_floats r) fs interpolate =
    Ok (fdiv (Fin fs)
          (if interpolate
           then fadd (Fin (INR f))
                  (quadratic_interp (Fin (nth (f - 1) r 0)) (Fin (nth f r 0))
                     (Fin (if (f + 1 =? length r)%nat then nth f r 0
                           else nth (f + 1) r 0)))
           else Fin (INR f))).
Proof.
  intros Hrise Hlen.
  destruct (first_rise_where r i Hrise) as [rest Hw].
  set (cutoff := Nat.max 1 i) in *.
  destruct (argmax_real (skipn (cutoff + 1) r)) as [m [Ha [Hm [Hmax Hfst]]]].
  { intros E. apply (f_equal (@length R)) in E.
    rewrite length_skipn in E. simpl in E. lia. }
  rewrite length_skipn in Hm, Hmax.
  exists (m + cutoff + 1)%nat.
  assert (Hnth : forall j, nth j (skipn (cutoff + 1) r) 0 = nth (j + cutoff + 1) r 0).
  { intros j. rewrite nth_skipn. f_equal. lia. }
  split.
  - repeat split; try lia.
    + intros j Hj. specialize (Hmax (j - (cutoff + 1))%nat ltac:(lia)).
      rewrite !Hnth in Hmax.
      now replace (j - (cutoff + 1) + cutoff + 1)%nat with j in Hmax by lia.
    + intros j Hj. specialize (Hfst (j - (cutoff + 1))%nat ltac:(lia)).
      rewrite !Hnth in Hfst.
      now replace (j - (cutoff + 1) + cutoff + 1)%nat with j in Hfst by lia.
  - unfold as_floats in Ha. rewrite <- skipn_map in Ha. fold (as_floats r) in Ha.
    destruct (get_f0_peak (as_floats r) fs interpolate i m rest Hw Ha) as [Hf ->].
    fold cutoff. set (f := (m + cutoff + 1)%nat) in *.
    unfold as_floats in Hf. rewrite length_map in Hf.
    replace (length (as_floats r)) with (length r)
      by (unfold as_floats; now rewrite length_map).
    rewrite !nth_as_floats by lia.
    destruct (Nat.eqb_spec (f + 1) (length r)).
    + reflexivity.
    + rewrite nth_as_floats by lia. reflexivity.
Qed.

Lemma where_gt0_01 :
  Np.where_gt0 (Np.diff [Fin 0; Fin 1]) = [0%nat].
Proof.
  cbn [Np.diff fsub Np.where_gt0 Np.where_gt0_from]. rewrite flt_0_fin.
  now rdecide.
Qed.

(** C5, counterexample.  The vector [0, 1] has a strictly positive first
    difference, the cutoff is 1, the slice behind it is empty and [np.argmax]
    raises: no frequency is returned. *)
Lemma locate_peak_algorithm_counterexample :
  first_rise [0; 1] 0 /\
  get_f0_from_acf (as_floats [0; 1]) 44100 false = Raise ValueError /\
  get_f0_from_acf (as_floats [0; 1]) 44100 true = Raise ValueError.
Proof.
  split; [|split].
  - unfold first_rise. cbn [length nth]. repeat split; try lia; try lra.
  - unfold get_f0_from_acf. cbn [as_floats map]. rewrite where_gt0_01. reflexivity.
  - unfold get_f0_from_acf. cbn [as_floats map]. rewrite where_gt0_01. reflexivity.
Qed.

Lemma locate_peak_algorithm_witness :
  exists f,
    peak_after [1; 0; 1] 1 f /\
    get_f0_from_acf (as_floats [1; 0; 1]) 44100 false =
    Ok (fdiv (Fin 44100) (Fin (INR f))).
Proof.
  apply (locate_peak_algorithm [1; 0; 1] 44100 false 1).
  - unfold first_rise. cbn [length nth]. repeat split; try lia; try lra.
    intros j Hj. assert (j = 0%nat) as -> by lia. cbn [nth]. lra.
  - cbn [length]. lia.
Defined.

(** C6.  For a signal of length [L], a block size [B] (a size: not negative),
    a hop size [H >= 1] and a sample rate [fs > 0], [block_audio] returns
    [ceil(L / H)] blocks and as many time stamps; block [n] is the [B]
    samples from index [n * H] of the signal padded on the right with [B]
    zeros; and [timestamps[i] = i * H / fs]. *)
Theorem block_audio_blocks (x : list float64) (B H : Z) (fs : R) :
  (1 <= H)%Z -> (0 <= B)%Z -> 0 < fs ->
  exists xb t,
    block_audio x B H fs = Ok (xb, t) /\
    Z.of_nat (length xb) = ceil_div (Z.of_nat (length x)) H /\
    ((Z.of_nat (length xb) - 1) * H < Z.of_nat (length x)
       <= Z.of_nat (length xb) * H)%Z /\
    length t = length xb /\
    (forall n, (n < length xb)%nat ->
       nth n xb [] =
       firstn (Z.to_nat B)
         (skipn (n * Z.to_nat H) (x ++ repeat (Fin 0) (Z.to_nat B))) /\
       length (nth n xb []) = Z.to_nat B) /\
    (forall i, (i < length xb)%nat ->
       nth i t NaN = Fin (INR i * IZR H / fs)).
Proof.
  intros HH HB Hfs. rewrite block_audio_ok by assumption.
  pose proof (ceil_div_nonneg (Z.of_nat (length x)) H ltac:(lia) ltac:(lia)) as Hnn.
  pose proof (ceil_div_bounds (Z.of_nat (length x)) H ltac:(lia)) as Hc.
  set (rows := Z.to_nat (ceil_div (Z.of_nat (length x)) H)).
  do 2 eexists. split; [reflexivity|].
  rewrite !length_map, !length_seq.
  assert (Hrows : Z.of_nat rows = ceil_div (Z.of_nat (length x)) H)
    by (unfold rows; lia).
  repeat split; try lia.
  - rewrite (nth_indep _ [] (block_at x B H 0)) by now rewrite length_map, length_seq.
    rewrite map_nth, seq_nth by assumption. reflexivity.
  - rewrite (nth_indep _ [] (block_at x B H 0)) by now rewrite length_map, length_seq.
    rewrite map_nth, seq_nth by assumption.
    apply block_at_length; lia.
  - intros i Hi.
    rewrite (nth_indep _ NaN (fdiv (Fin (IZR (Z.of_nat 0 * H))) (Fin fs)))
      by now rewrite length_map, length_seq.
    rewrite (map_nth (fun n : nat => fdiv (Fin (IZR (Z.of_nat n * H))) (Fin fs))).
    rewrite seq_nth by assumption. cbn [plus].
    rewrite fdiv_fin by lra. rewrite mult_IZR, <- INR_IZR_INZ. reflexivity.
Qed.

Lemma block_audio_blocks_witness :
  exists xb t,
    block_audio (as_floats [1; 2; 3; 4; 5]) 3 2 44100 = Ok (xb, t) /\
    Z.of_nat (length xb) = 3%Z /\
    ((Z.of_nat (length xb) - 1) * 2 < 5 <= Z.of_nat (length xb) * 2)%Z /\
    length t = length xb /\
    (forall n, (n < length xb)%nat ->
       nth n xb [] =
       firstn 3 (skipn (n * 2) (as_floats [1; 2; 3; 4; 5] ++ repeat (Fin 0) 3)) /\
       length (nth n xb []) = 3%nat) /\
    (forall i, (i < length xb)%nat -> nth i t NaN = Fin (INR i * 2 / 44100)).
Proof.
  apply (block_audio_blocks (as_floats [1; 2; 3; 4; 5]) 3 2 44100); try lia; lra.
Defined.

(** C7.  An all-zero block (of at least one sample) yields F0 = 0 under
    either [normalize] setting: the autocorrelation is computed without an
    exception and the peak locator returns 0.  The peak locator returns 0 for
    every ACF vector without a strictly positive first difference, and so
    for every strictly decreasing real vector. *)
Theorem silence_and_no_peak_yield_zero :
  (forall (n : nat) (normalize : bool) (fs : R) (interpolate : bool),
      (1 <= n)%nat ->
      (r <- comp_acf (repeat (Fin 0) n) normalize ;;
       get_f0_from_acf r fs interpolate) = Ok (Fin 0)) /\
  (forall (r : list float64) (fs : R) (interpolate : bool),
      Forall (fun d => flt (Fin 0) d = false) (Np.diff r) ->
      get_f0_from_acf r fs interpolate = Ok (Fin 0)) /\
  (forall (r : list R) (fs : R) (interpolate : bool),
      (forall k, (S k < length r)%nat -> nth (S k) r 0 < nth k r 0) ->
      get_f0_from_acf (as_floats r) fs interpolate = Ok (Fin 0)).
Proof.
  split; [|split].
  - intros n normalize fs interpolate Hn.
    rewrite comp_acf_silence by assumption. cbn [bind].
    apply get_f0_repeat.
  - intros r fs interpolate H. now apply get_f0_no_peak.
  - intros r fs interpolate Hdec. apply get_f0_no_peak.
    apply Forall_forall. intros d Hd.
    destruct (In_nth _ _ NaN Hd) as [k [Hk <-]].
    rewrite diff_length in Hk. unfold as_floats in Hk. rewrite length_map in Hk.
    rewrite diff_as_floats_nth by lia. rewrite flt_0_fin.
    apply Rltb_false. specialize (Hdec k ltac:(lia)). lra.
Qed.

Lemma silence_and_no_peak_yield_zero_witness :
  (r <- comp_acf (repeat (Fin 0) 4) true ;; get_f0_from_acf r 44100 true)
    = Ok (Fin 0) /\
  (r <- comp_acf (repeat (Fin 0) 4) false ;; get_f0_from_acf r 44100 true)
    = Ok (Fin 0) /\
  get_f0_from_acf [NaN; NaN] 44100 true = Ok (Fin 0) /\
  get_f0_from_acf (as_floats [3; 2; 1]) 44100 false = Ok (Fin 0).
Proof.
  destruct silence_and_no_peak_yield_zero as [Hsilence [Hnopeak Hdec]].
  split; [|split; [|split]].
  - apply Hsilence. lia.
  - apply Hsilence. lia.
  - apply Hnopeak. repeat constructor.
  - apply Hdec. intros k Hk. cbn [length] in Hk.
    destruct k as [|[|k]]; cbn [nth]; try lra; lia.
Defined.

(** C8 (amended).  Computed in exact real arithmetic, for every real signal
    [x] and every scalar [k] other than zero the normalised autocorrelation
    of [k * x] is the normalised autocorrelation of [x], entry by entry (for
    the empty signal both calls raise; for an all-zero signal both are NaN at
    every lag).  In float64 the entries are not equal in general: they can
    differ by rounding, and a gain under which the energy of [k * x]
    overflows, or underflows to zero, can turn an entry into NaN (the
    counterexample below). *)
Theorem comp_acf_scale_invariant (x : list R) (k : R) :
  k <> 0 ->
  comp_acf (scale k (as_floats x)) true = comp_acf (as_floats x) true.
Proof.
  intros Hk. rewrite scale_as_floats.
  destruct x as [|a x]; [reflexivity|].
  rewrite !comp_acf_real by discriminate.
  rewrite racf_scale, rdot_scale, map_map. f_equal.
  apply map_ext_in. intros c Hc. apply fdiv_scale; [assumption|].
  intros He. now apply (racf_zero_energy (a :: x)).
Qed.

Lemma comp_acf_scale_invariant_witness :
  comp_acf (scale 3 (as_floats [1; 2; -1])) true =
  comp_acf (as_floats [1; 2; -1]) true.
Proof. apply comp_acf_scale_invariant. lra. Defined.

Section Binary64Examples.

Import PrimFloat.

(** C8, counterexample.  In binary64 the normalised autocorrelation is not
    invariant under a gain.  For [x = [0.1, 0.7]] (the doubles
    0x1.999999999999ap-4 and 0x1.6666666666666p-1) the entry at lag 1 of
    [comp_acf(x, True)] is 0x1.1eb851eb851ecp-3 (0.14) and that of
    [comp_acf(3 * x, True)] is 0x1.1eb851eb851eep-3 (0.14000000000000007).
    [comp_acf([1.0], True)] is [[1.0]]; with the gain [2**600] the energy of
    [k * [1.0]] overflows and with the gain [2**-600] it underflows to zero,
    and the only entry is NaN in both cases.  No sum here has more than two
    products, so the order in which [np.dot] adds them plays no part. *)
Lemma comp_acf_scale_invariant_counterexample :
  let x := [0x1.999999999999ap-4; 0x1.6666666666666p-1]%float in
  Binary64.comp_acf x true = Ok [1; 0x1.1eb851eb851ecp-3]%float /\
  Binary64.comp_acf (Binary64.scale 3 x) true
    = Ok [1; 0x1.1eb851eb851eep-3]%float /\
  PrimFloat.eqb 0x1.1eb851eb851ecp-3 0x1.1eb851eb851eep-3 = false /\
  Binary64.comp_acf (Binary64.scale 3 x) true <> Binary64.comp_acf x true /\
  Binary64.comp_acf [1]%float true = Ok [1]%float /\
  PrimFloat.ltb 0 0x1p+600 = true /\
  Binary64.comp_acf (Binary64.scale 0x1p+600 [1])%float true = Ok [nan] /\
  PrimFloat.ltb 0 0x1p-600 = true /\
  Binary64.comp_acf (Binary64.scale 0x1p-600 [1])%float true = Ok [nan].
Proof.
  intros x.
  assert (H1 : Binary64.comp_acf x true = Ok [1; 0x1.1eb851eb851ecp-3]%float)
    by (vm_compute; reflexivity).
  assert (H2 : Binary64.comp_acf (Binary64.scale 3 x) true
               = Ok [1; 0x1.1eb851eb851eep-3]%float)
    by (vm_compute; reflexivity).
  split; [exact H1|]. split; [exact H2|].
  split; [vm_compute; reflexivity|].
  split.
  - rewrite H1, H2. intros E.
    apply (f_equal (fun r => match r with
                             | Ok [_; c] => PrimFloat.eqb c 0x1.1eb851eb851eep-3
                             | _ => false
                             end)) in E.
    vm_compute in E. discriminate.
  - repeat split; vm_compute; reflexivity.
Qed.

End Binary64Examples.

(** C9.  [block_rms] of an all-zero block (of at least one sample) is exactly
    [1e-5]; for every block of real samples the value returned is the larger
    of [1e-5] and the root mean square, so at least [1e-5]. *)
Theorem block_rms_floor :
  (forall n : nat, (1 <= n)%nat -> block_rms (repeat (Fin 0) n) = Fin 1e-5) /\
  (forall x : list R, x <> [] ->
     exists v, block_rms (as_floats x) = Fin v /\ 1e-5 <= v /\
               v = Rmax 1e-5 (sqrt (rdot x x / INR (length x)))).
Proof.
  split.
  - intros n Hn. rewrite repeat_zero_as_floats.
    rewrite block_rms_real by (destruct n; [lia|discriminate]).
    rewrite rdot_zero_r by apply Forall_repeat_zero.
    unfold Rdiv. rewrite Rmult_0_l, sqrt_0.
    f_equal. unfold epsilon. apply Rmax_left. lra.
  - intros x Hx. eexists. split; [now apply block_rms_real|].
    split; [|reflexivity]. fold epsilon. apply Rmax_l.
Qed.

Lemma block_rms_floor_witness :
  block_rms (repeat (Fin 0) 4) = Fin 1e-5 /\
  exists v, block_rms (as_floats [3; 4]) = Fin v /\ 1e-5 <= v /\
            v = Rmax 1e-5 (sqrt (rdot [3; 4] [3; 4] / INR (length [3; 4]))).
Proof.
  destruct block_rms_floor as [Hzero Hfloor].
  split.
  - apply Hzero. lia.
  - apply Hfloor. discriminate.
Defined.

(** C10.  When the early return is not taken ([np.where] found a positive
    difference, at index [i]) and [np.argmax] returned [m], the integer peak
    lag [f = m + max(1, i) + 1] is at least 2; without interpolation the
    function returns the quotient [fs / f] of reals, [f] not zero. *)
Theorem peak_lag_at_least_two (r : list float64) (fs : R) (i m : nat)
  (rest : list nat) :
  Np.where_gt0 (Np.diff r) = i :: rest ->
  Np.argmax (slice r (Z.of_nat (Nat.max 1 i) + 1) (Z.of_nat (length r))) = Ok m ->
  let f := (m + Nat.max 1 i + 1)%nat in
  (2 <= f)%nat /\ INR f <> 0 /\
  get_f0_from_acf r fs false = Ok (Fin (fs / INR f)).
Proof.
  intros Hw Ha f.
  assert (Hf : (2 <= f)%nat) by (unfold f; lia).
  assert (Hnz : INR f <> 0) by (apply not_0_INR; lia).
  repeat split; try assumption.
  replace (Z.of_nat (Nat.max 1 i) + 1)%Z with (Z.of_nat (Nat.max 1 i + 1)) in Ha by lia.
  rewrite slice_suffix in Ha.
  destruct (get_f0_peak r fs false i m rest Hw Ha) as [_ ->].
  fold f. now rewrite fdiv_fin.
Qed.

Lemma where_gt0_101 :
  Np.where_gt0 (Np.diff [Fin 1; Fin 0; Fin 1]) = [1%nat].
Proof.
  cbn [Np.diff fsub Np.where_gt0 Np.where_gt0_from]. rewrite !flt_0_fin.
  now rdecide.
Qed.

Lemma peak_lag_at_least_two_witness :
  (2 <= 2)%nat /\ INR 2 <> 0 /\
  get_f0_from_acf [Fin 1; Fin 0; Fin 1] 44100 false = Ok (Fin (44100 / INR 2)).
Proof.
  apply (peak_lag_at_least_two [Fin 1; Fin 0; Fin 1] 44100 1 0 []).
  - apply where_gt0_101.
  - reflexivity.
Defined.

(** * Further properties *)

(** ** Quadratic interpolation *)




(** ** Bounds and symmetry of the autocorrelation *)


Lemma fmul_comm (a b : float64) : fmul a b = fmul b a.
Proof.
  destruct a, b; cbn [fmul sgn]; try reflexivity;
    try (f_equal; apply Rmult_comm).
Qed.

Lemma dot_comm (x y : list float64) : Np.dot x y = Np.dot y x.
Proof.
  revert y. induction x as [|a x IH]; intros [|b y]; cbn [Np.dot]; try reflexivity.
  now rewrite IH, fmul_comm.
Qed.

Lemma corr_lag_neg (x : list float64) (k : Z) :
  Np.corr_lag x x (- k) = Np.corr_lag x x k.
Proof.
  unfold Np.corr_lag.
  destruct (Z.leb_spec 0 k), (Z.leb_spec 0 (- k)).
  - assert (k = 0%Z) as -> by lia. reflexivity.
  - rewrite Z.opp_involutive. apply dot_comm.
  - apply dot_comm.
  - lia.
Qed.

Lemma rev_map_seq {A : Type} (f : nat -> A) (n : nat) :
  rev (map f (seq 0 n)) = map (fun j => f (n - 1 - j)%nat) (seq 0 n).
Proof.
  induction n as [|n IH]; [reflexivity|].
  assert (Hl : rev (map f (seq 0 (S n))) = f n :: rev (map f (seq 0 n)))
    by (rewrite seq_S, map_app, rev_app_distr; reflexivity).
  rewrite Hl, IH. cbn [seq map].
  replace (S n - 1 - 0)%nat with n by lia. f_equal.
  rewrite <- seq_shift, map_map.
  apply map_ext. intros j. f_equal. lia.
Qed.

(** ** More on blocking *)

Lemma firstn_plus {A : Type} (n m : nat) (l : list A) :
  firstn (n + m) l = firstn n l ++ firstn m (skipn n l).
Proof.
  revert l. induction n as [|n IH]; intros [|a l]; cbn [plus firstn skipn app];
    try reflexivity.
  - now rewrite firstn_nil.
  - now rewrite IH.
Qed.

Lemma firstn_repeat_le {A : Type} (a : A) (m n : nat) :
  (m <= n)%nat -> firstn m (repeat a n) = repeat a m.
Proof.
  revert n. induction m as [|m IH]; intros [|n] Hm; cbn [firstn repeat];
    try reflexivity; try lia.
  rewrite IH by lia. reflexivity.
Qed.

Lemma concat_chunks {A : Type} (b N : nat) (l : list A) :
  concat (map (fun n => firstn b (skipn (n * b) l)) (seq 0 N)) = firstn (N * b) l.
Proof.
  revert l. induction N as [|N IH]; intros l; [reflexivity|].
  cbn [seq map concat]. rewrite <- seq_shift, map_map.
  cbn [Nat.mul plus skipn]. rewrite firstn_plus. f_equal.
  rewrite <- IH. f_equal. apply map_ext. intros n.
  f_equal. rewrite skipn_skipn. f_equal. lia.
Qed.

Lemma block_audio_empty (B H : Z) (rate : R) :
  H <> 0%Z -> (0 <= B)%Z -> block_audio [] B H rate = Ok ([], []).
Proof.
  intros HH HB. destruct (Z.lt_ge_cases H 0).
  - rewrite block_audio_hop_negative by assumption. cbn [length].
    destruct (Z.leb_spec (- H) (Z.of_nat 0)); [lia|reflexivity].
  - rewrite block_audio_ok by lia. cbn [length].
    replace (ceil_div (Z.of_nat 0) H) with 0%Z; [reflexivity|].
    symmetry. apply ceil_div_unique; lia.
Qed.

(** ** The frequency of a peak *)

Lemma as_floats_length (x : list R) : length (as_floats x) = length x.
Proof. apply length_map. Qed.



(** ** The range of the pitch tracker *)




Lemma block_at_as_floats (x : list R) (B H : Z) (n : nat) :
  block_at (as_floats x) B H n =
  as_floats (firstn (Z.to_nat B)
               (skipn (n * Z.to_nat H) (x ++ repeat 0 (Z.to_nat B)))).
Proof.
  unfold block_at, as_floats.
  now rewrite <- firstn_map, <- skipn_map, map_app, map_repeat.
Qed.


(** ** Parameters and trackers, continued *)



Lemma firstn_seq_le (n m s : nat) :
  (n <= m)%nat -> firstn n (seq s m) = seq s n.
Proof.
  revert m s. induction n as [|n IH]; intros [|m] s Hn; cbn [firstn seq];
    try reflexivity; try lia.
  rewrite IH by lia. reflexivity.
Qed.

Lemma track_vibrato_contour_rate `{L : ScipySignalLaws} (x : list float64)
  (p : VibratoTrackerParams) :
  (1 <= hop_size p)%Z -> (1 <= block_size p)%Z ->
  exists f0,
    track_vibrato_contour x p = Ok (f0, fs p / IZR (hop_size p)) /\
    length f0 = Z.to_nat (ceil_div (Z.of_nat (length x)) (hop_size p)).
Proof.
  intros HH HB. unfold track_vibrato_contour, compute_processed_f0.
  destruct (track_pitch_acf_ok x (block_size p) (hop_size p) (fs p)
              (interpolate p) HH HB) as [f0 [t [-> Hlen]]].
  cbn [bind]. rewrite vibrato_fs_ok by lia. cbn [bind truthy].
  eexists. split; [reflexivity|].
  fold (filtered_contour f0 (fs p / IZR (hop_size p))).
  now rewrite filtered_contour_length.
Qed.

(** The windows of a contour: when enough of them exist the rates are
    returned with the start times of the windows kept; otherwise the count
    of windows left is negative and [np.zeros] raises. *)
Lemma windows_rates_times (rate : list float64 -> result float64)
  (contour : list float64) (wsize whop hd : Z) (sr : R) :
  (forall w, (1 <= length w)%nat -> exists v, rate w = Ok v) ->
  (1 <= wsize)%Z -> (1 <= whop)%Z -> (1 <= hd)%Z ->
  let n := (ceil_div (Z.of_nat (length contour)) whop - (hd - 1))%Z in
  (0 <= n)%Z ->
  exists rates,
    ('(windows, times) <- block_audio contour wsize whop sr ;;
     rates_of_windows rate windows times hd) =
    Ok (rates,
        map (fun i : nat => fdiv (Fin (IZR (Z.of_nat i * whop))) (Fin sr))
            (seq 0 (Z.to_nat n))) /\
    length rates = Z.to_nat n.
Proof.
  intros Hrate Hws Hwh Hhd n Hn.
  rewrite block_audio_ok by lia. cbn [bind].
  set (rows := Z.to_nat (ceil_div (Z.of_nat (length contour)) whop)).
  pose proof (ceil_div_nonneg (Z.of_nat (length contour)) whop
                ltac:(lia) ltac:(lia)) as Hnn.
  destruct (rates_of_windows_ok rate (map (block_at contour wsize whop) (seq 0 rows))
              (map (fun n : nat => fdiv (Fin (IZR (Z.of_nat n * whop))) (Fin sr))
                 (seq 0 rows)) hd) as [rates [-> [Hlr Hlt]]].
  - intros w Hw. apply Hrate. now apply (blocks_nonempty contour wsize whop).
  - assumption.
  - rewrite length_map, length_seq. unfold rows, n in *. lia.
  - now rewrite !length_map, !length_seq.
  - rewrite length_map, length_seq in *.
    replace (Z.to_nat (Z.of_nat rows - (hd - 1))) with (Z.to_nat n) in *
      by (unfold rows, n; lia).
    exists rates. split; [|assumption]. do 2 f_equal.
    rewrite firstn_map. f_equal.
    apply firstn_seq_le. unfold rows, n. lia.
Qed.

Lemma windows_rates_short (rate : list float64 -> result float64)
  (contour : list float64) (wsize whop hd : Z) (sr : R) :
  (0 <= wsize)%Z -> (1 <= whop)%Z ->
  (ceil_div (Z.of_nat (length contour)) whop < hd - 1)%Z ->
  ('(windows, times) <- block_audio contour wsize whop sr ;;
   rates_of_windows rate windows times hd) = Raise ValueError.
Proof.
  intros Hws Hwh Hshort.
  rewrite block_audio_ok by lia. cbn [bind].
  pose proof (ceil_div_nonneg (Z.of_nat (length contour)) whop
                ltac:(lia) ltac:(lia)) as Hnn.
  apply rates_of_windows_short. rewrite length_map, length_seq. lia.
Qed.

(** ** The single-frequency estimator *)

Lemma track_pitch_acf_empty (B H : Z) (rate : R) (interpolate : bool) :
  H <> 0%Z -> (0 <= B)%Z ->
  track_pitch_acf [] B H rate interpolate = Ok ([], []).
Proof.
  intros HH HB. unfold track_pitch_acf.
  now rewrite block_audio_empty by assumption.
Qed.

Lemma compute_processed_f0_length `{L : ScipySignalLaws} (x : list float64)
  (B H : Z) (rate : R) (flt_flag : flag) (interpolate : bool)
  (f0 t : list float64) :
  H <> 0%Z ->
  track_pitch_acf x B H rate interpolate = Ok (f0, t) ->
  exists c, compute_processed_f0 x B H rate flt_flag interpolate
            = Ok (c, rate / IZR H) /\ length c = length f0.
Proof.
  intros HH Ht. unfold compute_processed_f0. rewrite Ht. cbn [bind].
  rewrite vibrato_fs_ok by assumption. cbn [bind].
  eexists. split; [reflexivity|].
  destruct (truthy flt_flag).
  - fold (filtered_contour f0 (rate / IZR H)). apply filtered_contour_length.
  - apply remove_mean_length.
Qed.

(** ** Signal generators *)

Lemma zip_with_map_r {A B C : Type} (f : A -> B -> C) (g : A -> B) (l : list A) :
  zip_with f l (map g l) = map (fun a => f a (g a)) l.
Proof. induction l as [|a l IH]; cbn [map zip_with]; [reflexivity|now rewrite IH]. Qed.

Lemma zip_with_map_l {A B C : Type} (f : B -> A -> C) (g : A -> B) (l : list A) :
  zip_with f (map g l) l = map (fun a => f (g a) a) l.
Proof. induction l as [|a l IH]; cbn [map zip_with]; [reflexivity|now rewrite IH]. Qed.



(** ** Degenerate block size *)

Lemma block_at_zero (x : list float64) (H : Z) (n : nat) :
  block_at x 0 H n = [].
Proof. reflexivity. Qed.

Lemma block_rms_empty : block_rms [] = NaN.
Proof.
  unfold block_rms. cbn [Np.dot length INR]. now rewrite fdiv_0_0.
Qed.

Lemma mapM_raise_head {A B : Type} (f : A -> result B) (a : A) (l : list A)
  (e : exn) :
  f a = Raise e -> mapM f (a :: l) = Raise e.
Proof. intros H. cbn [mapM]. now rewrite H. Qed.

(** ** Negation in binary64 *)

Section Binary64Negation.

Import Floats.




End Binary64Negation.

(** * Further results *)

(** X4.  The full correlation of an array with itself that [comp_acf]
    computes is symmetric about lag 0: it has [2n - 1] entries and reads the
    same reversed, so the right half [comp_acf] keeps determines the left
    half it drops.  This holds for every non-empty array, also with NaN or
    infinite entries. *)
Theorem correlate_full_symmetric (x : list float64) :
  x <> [] ->
  exists c, Np.correlate_full x x = Ok c /\
            length c = (2 * length x - 1)%nat /\ rev c = c.
Proof.
  intros Hx. rewrite correlate_full_ok by assumption.
  eexists. split; [reflexivity|].
  split; [rewrite length_map, length_seq; lia|].
  assert (Hn : (1 <= length x)%nat)
    by (destruct x; [contradiction|simpl; lia]).
  rewrite rev_map_seq. apply map_ext_in. intros j Hj. apply in_seq in Hj.
  rewrite <- corr_lag_neg. f_equal. lia.
Qed.

Lemma correlate_full_symmetric_witness :
  exists c, Np.correlate_full [Fin 1; NaN; Fin 3] [Fin 1; NaN; Fin 3] = Ok c /\
            length c = 5%nat /\ rev c = c.
Proof. apply (correlate_full_symmetric [Fin 1; NaN; Fin 3]). discriminate. Defined.

(** X5.  Blocking without overlap loses nothing: with [hop_size] equal to
    [block_size] (at least 1) the blocks of [block_audio], joined, are the
    signal followed by zeros, and their first [len(x)] samples are the
    signal. *)
Theorem block_audio_no_overlap_roundtrip (x : list float64) (B : Z) (rate : R) :
  (1 <= B)%Z ->
  exists xb t,
    block_audio x B B rate = Ok (xb, t) /\
    firstn (length x) (concat xb) = x /\
    concat xb = x ++ repeat (Fin 0) (length xb * Z.to_nat B - length x).
Proof.
  intros HB. rewrite block_audio_ok by lia.
  set (N := Z.to_nat (ceil_div (Z.of_nat (length x)) B)).
  pose proof (ceil_div_bounds (Z.of_nat (length x)) B ltac:(lia)) as Hc.
  pose proof (ceil_div_nonneg (Z.of_nat (length x)) B ltac:(lia) ltac:(lia)) as Hnn.
  set (b := Z.to_nat B).
  assert (HN : (length x <= N * b <= length x + b)%nat) by (unfold N, b; nia).
  do 2 eexists. split; [reflexivity|].
  rewrite length_map, length_seq. fold N.
  assert (Hcat : concat (map (block_at x B B) (seq 0 N)) =
                 x ++ repeat (Fin 0) (N * b - length x)).
  { unfold block_at. fold b. rewrite concat_chunks.
    rewrite firstn_app, firstn_all2 by lia.
    now rewrite firstn_repeat_le by lia. }
  rewrite Hcat. split; [|reflexivity].
  rewrite firstn_app, Nat.sub_diag, firstn_all. apply app_nil_r.
Qed.

Lemma block_audio_no_overlap_roundtrip_witness :
  exists xb t,
    block_audio [Fin 1; Fin 2; Fin 3; Fin 4; Fin 5] 2 2 44100 = Ok (xb, t) /\
    firstn 5 (concat xb) = [Fin 1; Fin 2; Fin 3; Fin 4; Fin 5] /\
    concat xb = [Fin 1; Fin 2; Fin 3; Fin 4; Fin 5]
                  ++ repeat (Fin 0) (length xb * 2 - 5).
Proof.
  apply (block_audio_no_overlap_roundtrip
           [Fin 1; Fin 2; Fin 3; Fin 4; Fin 5] 2 44100). lia.
Defined.

(** X6.  [block_audio] at the ends of its range: the empty signal gives no
    block and no time stamp, for every hop size other than 0; a non-empty
    signal no longer than the hop size and the block size becomes one block,
    the signal followed by zeros up to [block_size], with one time stamp
    [0 / fs]. *)
Theorem block_audio_empty_and_single (B H : Z) (rate : R) :
  (H <> 0%Z -> (0 <= B)%Z -> block_audio [] B H rate = Ok ([], [])) /\
  (forall x : list float64,
     x <> [] -> (Z.of_nat (length x) <= H)%Z -> (Z.of_nat (length x) <= B)%Z ->
     block_audio x B H rate =
     Ok ([x ++ repeat (Fin 0) (Z.to_nat B - length x)],
         [fdiv (Fin 0) (Fin rate)])).
Proof.
  split; [apply block_audio_empty|].
  intros x Hx HH HB.
  assert (HL : (1 <= length x)%nat) by (destruct x; [contradiction|simpl; lia]).
  rewrite block_audio_ok by lia.
  replace (ceil_div (Z.of_nat (length x)) H) with 1%Z
    by (symmetry; apply ceil_div_unique; lia).
  change (Z.to_nat 1) with 1%nat. cbn [seq map].
  change (Z.of_nat 0 * H)%Z with 0%Z.
  unfold block_at. cbn [Nat.mul skipn].
  rewrite firstn_app, firstn_all2 by lia.
  rewrite firstn_repeat_le by lia. reflexivity.
Qed.

Lemma block_audio_empty_and_single_witness :
  block_audio [] 4 (-3) 44100 = Ok ([], []) /\
  block_audio [Fin 1; Fin 2] 4 3 44100 =
    Ok ([[Fin 1; Fin 2] ++ repeat (Fin 0) (Z.to_nat 4 - 2)],
        [fdiv (Fin 0) (Fin 44100)]).
Proof.
  destruct (block_audio_empty_and_single 4 (-3) 44100) as [Hempty _].
  destruct (block_audio_empty_and_single 4 3 44100) as [_ Hone].
  split.
  - apply Hempty; lia.
  - apply (Hone [Fin 1; Fin 2]); [discriminate|cbn; lia|cbn; lia].
Defined.

(** X7.  Consecutive blocks of [block_audio] agree on their overlap: with
    [1 <= hop_size <= block_size], block [n] without its first [hop_size]
    samples is the first [block_size - hop_size] samples of block [n + 1]. *)
Theorem block_audio_overlap (x : list float64) (B H : Z) (rate : R) (n : nat) :
  (1 <= H <= B)%Z ->
  exists xb t,
    block_audio x B H rate = Ok (xb, t) /\
    ((S n < length xb)%nat ->
     skipn (Z.to_nat H) (nth n xb []) =
     firstn (Z.to_nat B - Z.to_nat H) (nth (S n) xb [])).
Proof.
  intros HHB. rewrite block_audio_ok by lia.
  do 2 eexists. split; [reflexivity|].
  rewrite length_map, length_seq. intros Hn.
  rewrite !(nth_indep _ [] (block_at x B H 0)) by (rewrite length_map, length_seq; lia).
  rewrite !(map_nth (block_at x B H)), !seq_nth by lia. cbn [plus].
  unfold block_at.
  rewrite skipn_firstn_comm, skipn_skipn, firstn_firstn.
  rewrite Nat.min_l by lia. reflexivity.
Qed.

Lemma block_audio_overlap_witness :
  exists xb t,
    block_audio [Fin 1; Fin 2; Fin 3; Fin 4; Fin 5] 3 2 44100 = Ok (xb, t) /\
    ((2 < length xb)%nat ->
     skipn 2 (nth 1 xb []) = firstn (3 - 2) (nth 2 xb [])).
Proof.
  apply (block_audio_overlap [Fin 1; Fin 2; Fin 3; Fin 4; Fin 5] 3 2 44100 1).
  lia.
Defined.



(** X12.  For a real signal and a block size and a hop size of at least 1,
    [track_rms] returns one RMS value and one time stamp per block,
    [ceil(len(x) / hop_size)] of each, and every RMS value is a real number
    of at least [1e-5]. *)
Theorem track_rms_floor (x : list R) (B H : Z) (rate : R) :
  (1 <= H)%Z -> (1 <= B)%Z ->
  exists rms t,
    track_rms (as_floats x) B H rate = Ok (rms, t) /\
    Z.of_nat (length rms) = ceil_div (Z.of_nat (length x)) H /\
    length t = length rms /\
    Forall (fun v => exists u, v = Fin u /\ 1e-5 <= u) rms.
Proof.
  intros HH HB. unfold track_rms.
  rewrite block_audio_ok by lia. cbn [bind]. rewrite as_floats_length.
  pose proof (ceil_div_nonneg (Z.of_nat (length x)) H ltac:(lia) ltac:(lia)) as Hnn.
  do 2 eexists. split; [reflexivity|].
  unfold extract_rms. rewrite !length_map, !length_seq.
  repeat split; [lia|].
  apply Forall_forall. intros v Hv.
  apply in_map_iff in Hv as [w [<- Hw]].
  apply in_map_iff in Hw as [n [<- Hn]]. apply in_seq in Hn.
  pose proof (block_at_length (as_floats x) B H n ltac:(lia) ltac:(lia)) as Hbl.
  rewrite as_floats_length in Hbl. specialize (Hbl ltac:(lia)).
  rewrite block_at_as_floats in *. rewrite as_floats_length in Hbl.
  rewrite block_rms_real by (apply nonempty_length; lia).
  eexists. split; [reflexivity|]. fold epsilon. apply Rmax_l.
Qed.

Lemma track_rms_floor_witness :
  exists rms t,
    track_rms (as_floats [0; 0; 3; 4]) 2 2 8 = Ok (rms, t) /\
    Z.of_nat (length rms) = 2%Z /\
    length t = length rms /\
    Forall (fun v => exists u, v = Fin u /\ 1e-5 <= u) rms.
Proof. apply (track_rms_floor [0; 0; 3; 4] 2 2 8); lia. Defined.



(** X14.  With sizes of at least 1, a signal whose contour has fewer than
    [hop_denominator - 1] windows makes both [track_vibrato_freq] and
    [track_rms_vibrato_freq] raise [ValueError]: the number of windows left
    after the cut is negative and [np.zeros] rejects it. *)
Theorem trackers_raise_on_short_signal `{L : ScipySignalLaws} (x : list float64)
  (p : VibratoTrackerParams) :
  (1 <= hop_size p)%Z -> (1 <= block_size p)%Z ->
  (1 <= window_size p)%Z -> (1 <= window_hop_size p)%Z ->
  (ceil_div (ceil_div (Z.of_nat (length x)) (hop_size p)) (window_hop_size p)
   < hop_denominator p - 1)%Z ->
  track_vibrato_freq x p = Raise ValueError /\
  track_rms_vibrato_freq x p = Raise ValueError.
Proof.
  intros HH HB Hws Hwh Hshort.
  pose proof (ceil_div_nonneg (Z.of_nat (length x)) (hop_size p)
                ltac:(lia) ltac:(lia)) as Hnn.
  split.
  - rewrite track_vibrato_freq_eq.
    destruct (track_vibrato_contour_rate x p HH HB) as [f0 [-> Hlen]].
    cbn [bind]. apply windows_rates_short; try lia.
    rewrite Hlen, Z2Nat.id by assumption. exact Hshort.
  - rewrite track_rms_vibrato_freq_eq.
    destruct (track_rms_ok x (block_size p) (hop_size p) (fs p) HH ltac:(lia))
      as [rms [t [-> Hlen]]].
    cbn [bind]. rewrite vibrato_fs_ok by lia. cbn [bind].
    apply windows_rates_short; try lia.
    rewrite Hlen, Z2Nat.id by assumption. exact Hshort.
Qed.

Lemma trackers_raise_on_short_signal_witness :
  @track_vibrato_freq passthrough (as_floats [1; 2; 3; 4; 5]) default_params
    = Raise ValueError /\
  track_rms_vibrato_freq (as_floats [1; 2; 3; 4; 5]) default_params
    = Raise ValueError.
Proof.
  apply (@trackers_raise_on_short_signal passthrough passthrough_laws
           (as_floats [1; 2; 3; 4; 5]) default_params); cbn; lia.
Defined.

(** X15.  When the trackers return (sizes of at least 1, at least
    [hop_denominator - 1] windows) and the sample rate is positive, both
    return the same time array: entry [i] is the start time of window [i],
    [i * window_hop_size * hop_size / fs] seconds. *)
Theorem trackers_window_times `{L : ScipySignalLaws} (x : list float64)
  (p : VibratoTrackerParams) :
  (1 <= hop_size p)%Z -> (1 <= block_size p)%Z ->
  (1 <= window_size p)%Z -> (1 <= window_hop_size p)%Z ->
  (1 <= hop_denominator p)%Z -> 0 < fs p ->
  let n := (ceil_div (ceil_div (Z.of_nat (length x)) (hop_size p))
              (window_hop_size p) - (hop_denominator p - 1))%Z in
  (0 <= n)%Z ->
  let times :=
    map (fun i : nat =>
           Fin (INR i * IZR (window_hop_size p) * IZR (hop_size p) / fs p))
        (seq 0 (Z.to_nat n)) in
  (exists rates, track_vibrato_freq x p = Ok (rates, times)) /\
  (exists rates, track_rms_vibrato_freq x p = Ok (rates, times)).
Proof.
  intros HH HB Hws Hwh Hhd Hfs n Hn times.
  pose proof (ceil_div_nonneg (Z.of_nat (length x)) (hop_size p)
                ltac:(lia) ltac:(lia)) as Hnn.
  assert (Hhop : 0 < IZR (hop_size p)) by (apply IZR_lt; lia).
  assert (Hrate : fs p / IZR (hop_size p) <> 0).
  { apply Rgt_not_eq. now apply Rdiv_lt_0_compat. }
  assert (Htimes :
    map (fun i : nat =>
           fdiv (Fin (IZR (Z.of_nat i * window_hop_size p)))
                (Fin (fs p / IZR (hop_size p))))
        (seq 0 (Z.to_nat n)) = times).
  { unfold times. apply map_ext. intros i.
    rewrite fdiv_fin by assumption. f_equal.
    rewrite mult_IZR, <- INR_IZR_INZ. field. lra. }
  split.
  - rewrite track_vibrato_freq_eq.
    destruct (track_vibrato_contour_rate x p HH HB) as [f0 [-> Hlen]].
    cbn [bind].
    destruct (windows_rates_times
                (fun w => find_vibrato_freq_from_f0 w (fs p / IZR (hop_size p)) true)
                f0 (window_size p) (window_hop_size p) (hop_denominator p)
                (fs p / IZR (hop_size p))) as [rates [Hr _]]; try assumption.
    + intros w Hw. now apply find_vibrato_freq_from_f0_total.
    + rewrite Hlen, Z2Nat.id by assumption. exact Hn.
    + rewrite Hlen, Z2Nat.id in Hr by assumption. fold n in Hr.
      rewrite Htimes in Hr. eauto.
  - rewrite track_rms_vibrato_freq_eq.
    destruct (track_rms_ok x (block_size p) (hop_size p) (fs p) HH ltac:(lia))
      as [rms [t [-> Hlen]]].
    cbn [bind]. rewrite vibrato_fs_ok by lia. cbn [bind].
    destruct (windows_rates_times
                (fun w => find_vibrato_freq_from_rms w (fs p / IZR (hop_size p)) true)
                rms (window_size p) (window_hop_size p) (hop_denominator p)
                (fs p / IZR (hop_size p))) as [rates [Hr _]]; try assumption.
    + intros w Hw. now apply find_vibrato_freq_from_rms_total.
    + rewrite Hlen, Z2Nat.id by assumption. exact Hn.
    + rewrite Hlen, Z2Nat.id in Hr by assumption. fold n in Hr.
      rewrite Htimes in Hr. eauto.
Qed.

Lemma trackers_window_times_witness :
  let p := {| block_size := 2; hop_size := 1; fs := 8;
              filter := true; interpolate := true;
              hop_denominator := 2; window_duration := 0.5;
              acf_fs := 8; window_size := 4; window_hop_size := 2 |} in
  let x := as_floats [1; 2; 3; 2; 1; 2] in
  let times := map (fun i : nat => Fin (INR i * 2 * 1 / 8)) (seq 0 2) in
  (exists rates, @track_vibrato_freq passthrough x p = Ok (rates, times)) /\
  (exists rates, track_rms_vibrato_freq x p = Ok (rates, times)).
Proof.
  intros p x times.
  apply (@trackers_window_times passthrough passthrough_laws x p);
    cbn; try lia; lra.
Defined.

(** X16.  [find_vibrato_freq], with either setting of [filter] and
    [interpolate]: on the empty signal it raises [ValueError] (the contour is
    empty and [np.correlate] rejects it); on a non-empty signal, with a block
    size and a hop size of at least 1, it returns a frequency. *)
Theorem find_vibrato_freq_empty_and_total `{L : ScipySignalLaws}
  (B H : Z) (rate : R) (use_filter interpolate : bool) :
  (1 <= H)%Z -> (1 <= B)%Z ->
  find_vibrato_freq [] B H rate use_filter interpolate = Raise ValueError /\
  (forall x : list float64, x <> [] ->
     exists v, find_vibrato_freq x B H rate use_filter interpolate = Ok v).
Proof.
  intros HH HB. split.
  - unfold find_vibrato_freq.
    destruct (compute_processed_f0_length [] B H rate (PyBool use_filter)
                interpolate [] []) as [c [-> Hc]]; [lia| |].
    + apply track_pitch_acf_empty; lia.
    + cbn [bind]. apply length_zero_iff_nil in Hc. subst c. reflexivity.
  - intros x Hx. unfold find_vibrato_freq.
    destruct (track_pitch_acf_ok x B H rate interpolate HH HB)
      as [f0 [t [Ht Hlen]]].
    destruct (compute_processed_f0_length x B H rate (PyBool use_filter)
                interpolate f0 t ltac:(lia) Ht) as [c [-> Hc]].
    cbn [bind]. apply find_vibrato_freq_from_f0_total.
    rewrite Hc, Hlen.
    pose proof (ceil_div_bounds (Z.of_nat (length x)) H ltac:(lia)).
    assert (1 <= length x)%nat by (destruct x; [contradiction|simpl; lia]).
    nia.
Qed.

Lemma find_vibrato_freq_empty_and_total_witness :
  @find_vibrato_freq passthrough [] 4 2 8 true true = Raise ValueError /\
  exists v, @find_vibrato_freq passthrough (as_floats [1; 2; 3; 2; 1]) 4 2 8
              true true = Ok v.
Proof.
  destruct (@find_vibrato_freq_empty_and_total passthrough passthrough_laws
              4 2 8 true true) as [Hempty Htotal]; try lia.
  split; [exact Hempty|]. apply Htotal. discriminate.
Defined.



(** X19.  A block size of 0 (hop size at least 1, non-empty signal) is not
    rejected by the blocking but by what follows: [track_pitch_acf] raises
    [ValueError] ([np.correlate] on an empty block), while [track_rms]
    returns normally with NaN for every block, the floor of [1e-5] not
    applying to NaN. *)
Theorem zero_block_size (x : list float64) (H : Z) (rate : R)
  (interpolate : bool) :
  x <> [] -> (1 <= H)%Z ->
  track_pitch_acf x 0 H rate interpolate = Raise ValueError /\
  exists rms t,
    track_rms x 0 H rate = Ok (rms, t) /\
    (1 <= length rms)%nat /\ Forall (fun v => v = NaN) rms.
Proof.
  intros Hx HH.
  pose proof (ceil_div_bounds (Z.of_nat (length x)) H ltac:(lia)) as Hc.
  assert (HL : (1 <= length x)%nat) by (destruct x; [contradiction|simpl; lia]).
  assert (HN : (1 <= Z.to_nat (ceil_div (Z.of_nat (length x)) H))%nat) by nia.
  split.
  - unfold track_pitch_acf. rewrite block_audio_ok by lia. cbn [bind].
    destruct (Z.to_nat (ceil_div (Z.of_nat (length x)) H)) as [|N]; [lia|].
    cbn [seq map]. rewrite (mapM_raise_head _ _ _ ValueError); reflexivity.
  - unfold track_rms. rewrite block_audio_ok by lia. cbn [bind].
    do 2 eexists. split; [reflexivity|].
    unfold extract_rms. rewrite !length_map, length_seq. split; [assumption|].
    apply Forall_forall. intros v Hv.
    apply in_map_iff in Hv as [w [<- Hw]].
    apply in_map_iff in Hw as [n [<- _]].
    rewrite block_at_zero. apply block_rms_empty.
Qed.

Lemma zero_block_size_witness :
  track_pitch_acf [Fin 1; Fin 2; Fin 3] 0 2 8 true = Raise ValueError /\
  exists rms t,
    track_rms [Fin 1; Fin 2; Fin 3] 0 2 8 = Ok (rms, t) /\
    (1 <= length rms)%nat /\ Forall (fun v => v = NaN) rms.
Proof.
  apply (zero_block_size [Fin 1; Fin 2; Fin 3] 2 8 true); [discriminate|lia].
Defined.

